(** * Akumuli block store (libakumuli/storage_engine/blockstore.cpp)

    A shallow embedding of [Block] and [BlockStore] and of the addressing
    helpers [extract_gen], [extract_vol] and [make_logic], followed by the
    verification of the properties the specification states about them.

    Conventions.
    - Fixed-width unsigned integers are values of [Z]; every conversion to
      a narrower type is written with [u32] or [u64].
    - [std::vector] is a [list]; [operator[]] and [at] are [index] and
      [at_], which say what happens past the end.
    - A member function that mutates the store takes the store and returns
      the new one inside [outcome], which also carries [AKU_PANIC], a thrown
      [std::out_of_range] and undefined behaviour.
    - [Volume] and [MetaVolume] are collaborators whose code lives in other
      translation units: they are interfaces (type classes) here, and every
      theorem that can be stated for an arbitrary implementation is.
    - The constructor opens the collaborators through their factories,
      which are parameters; [wf] describes the stores on which the member
      functions stay within bounds. *)

From Stdlib Require Import ZArith String.
From stdpp Require Import base decidable option list numbers.

Local Open Scope Z_scope.

(** ** Machine integers *)

(** Conversion to [uint32_t]. *)
Definition u32 (x : Z) : Z := x mod 2 ^ 32.

(** Conversion to [uint64_t]. *)
Definition u64 (x : Z) : Z := x mod 2 ^ 64.

Definition is_u32 (x : Z) : Prop := 0 <= x < 2 ^ 32.
Definition is_u64 (x : Z) : Prop := 0 <= x < 2 ^ 64.

(** [typedef uint64_t LogicAddr; typedef uint32_t BlockAddr;] *)
Definition LogicAddr := Z.
Definition BlockAddr := Z.

(** ** Status codes *)

(** Modelled from the spec: the enumeration [aku_Status] is declared in a
    header that is not part of the sources.  The store itself names
    [AKU_SUCCESS], [AKU_EBAD_ARG] (InvalidArgument) and [AKU_EOVERFLOW]
    (Overflow); [AKU_EIO] stands for an underlying I/O or media error, and
    [AKU_ECODE] for any other code a collaborator may report. *)
Inductive aku_Status : Type :=
| AKU_SUCCESS
| AKU_EBAD_ARG
| AKU_EOVERFLOW
| AKU_EIO
| AKU_ECODE (code : N).

#[global] Instance aku_Status_eq_dec : EqDecision aku_Status.
Proof. solve_decision. Defined.

(** ** Outcomes of a call *)

Inductive outcome (A : Type) : Type :=
| Returns (a : A)          (* the call returns [a] *)
| Panics (msg : string)    (* AKU_PANIC(msg) *)
| Throws                   (* std::out_of_range, thrown by vector::at *)
| Undefined.               (* undefined behaviour: operator[] past the end,
                              remainder by zero *)

Arguments Returns {A} a.
Arguments Panics {A} msg.
Arguments Throws {A}.
Arguments Undefined {A}.

#[global] Instance outcome_ret : MRet outcome := @Returns.

#[global] Instance outcome_bind : MBind outcome := fun A B f m =>
  match m with
  | Returns a => f a
  | Panics msg => Panics msg
  | Throws => Throws
  | Undefined => Undefined
  end.

(** [v[i]] for a [std::vector]. *)
Definition index {A : Type} (v : list A) (i : Z) : outcome A :=
  if decide (0 <= i) then
    match v !! Z.to_nat i with
    | Some x => Returns x
    | None => Undefined
    end
  else Undefined.

(** [v.at(i)]. *)
Definition at_ {A : Type} (v : list A) (i : Z) : outcome A :=
  if decide (0 <= i) then
    match v !! Z.to_nat i with
    | Some x => Returns x
    | None => Throws
    end
  else Throws.

(** [v.size()]. *)
Definition size {A : Type} (v : list A) : Z := Z.of_nat (length v).

(** The effect of a callee writing [src] through a raw pointer to the
    storage of the vector [dest]: the bytes are overwritten from the front,
    the vector keeps its size. *)
Definition overwrite {A : Type} (dest src : list A) : list A :=
  take (length dest) src ++ drop (length src) dest.

(** ** Addressing *)

Definition extract_gen (addr : LogicAddr) : Z :=
  u32 (Z.shiftr addr 32).

Definition extract_vol (addr : LogicAddr) : BlockAddr :=
  u32 (Z.land addr 4294967295).

Definition make_logic (gen : Z) (addr : BlockAddr) : LogicAddr :=
  Z.lor (u64 (Z.shiftl (u64 gen) 32)) addr.

(** ** The collaborators *)

Module Volume.

(** The interface of [Volume] as the store uses it.  [read_block] is
    [const] and yields the bytes it copies to the destination;
    [append_block] yields the status, the block's offset and the volume
    after the call. *)
Class Ops (V : Type) : Type := {
  read_block : V -> BlockAddr -> aku_Status * list Byte.byte;
  append_block : V -> list Byte.byte -> (aku_Status * BlockAddr) * V;
  reset : V -> V;
  flush : V -> V;
  get_size : V -> Z
}.

End Volume.

Module MetaVolume.

(** The interface of [MetaVolume] as the store uses it.  The getters are
    [const]; the setters yield the status and the registry after the
    call. *)
Class Ops (M : Type) : Type := {
  get_generation : M -> Z -> aku_Status * Z;
  get_nblocks : M -> Z -> aku_Status * Z;
  set_generation : M -> Z -> Z -> aku_Status * M;
  set_nblocks : M -> Z -> Z -> aku_Status * M;
  flush : M -> M
}.

End MetaVolume.

(** ** Block *)

(** [Block] holds the payload and the address.  Its third member, the
    shared pointer [store_] back to the store, carries no data of its own
    and has no counterpart in an embedding without a heap. *)
Record Block : Type := mkBlock {
  data_ : list Byte.byte;
  addr_ : LogicAddr
}.

Definition get_data (b : Block) : list Byte.byte := data_ b.

Definition get_size (b : Block) : Z := size (data_ b).

(** ** BlockStore *)

Module BlockStore.
Section Store.

Context {V M : Type} `{!Volume.Ops V} `{!MetaVolume.Ops M}.

(** The fixed block size, a constant of a header outside the sources. *)
Variable AKU_BLOCK_SIZE : nat.

(** The data members.  Modelled from the spec: the class declaration is
    in a header outside the sources; [current_volume_] and
    [current_gen_] are [uint32_t], a dirty counter is a count of appends
    and resets and is kept unbounded. *)
Record t : Type := mk {
  meta_ : M;
  volumes_ : list V;
  dirty_ : list Z;
  current_volume_ : Z;
  current_gen_ : Z;
  total_size_ : Z
}.

Definition with_meta (s : t) (m : M) : t :=
  mk m (volumes_ s) (dirty_ s) (current_volume_ s) (current_gen_ s)
     (total_size_ s).

Definition with_volumes (s : t) (vs : list V) : t :=
  mk (meta_ s) vs (dirty_ s) (current_volume_ s) (current_gen_ s)
     (total_size_ s).

Definition with_dirty (s : t) (ds : list Z) : t :=
  mk (meta_ s) (volumes_ s) ds (current_volume_ s) (current_gen_ s)
     (total_size_ s).

Definition with_current_volume (s : t) (cv : Z) : t :=
  mk (meta_ s) (volumes_ s) (dirty_ s) cv (current_gen_ s) (total_size_ s).

Definition with_current_gen (s : t) (g : Z) : t :=
  mk (meta_ s) (volumes_ s) (dirty_ s) (current_volume_ s) g
     (total_size_ s).

(** [x % volumes_.size()]. *)
Definition mod_size (x : Z) (s : t) : outcome Z :=
  if decide (size (volumes_ s) = 0) then Undefined
  else Returns (x mod size (volumes_ s)).

(** [volumes_[ix]] after a call on it left the volume as [v]. *)
Definition store_volume (s : t) (ix : Z) (v : V) : t :=
  with_volumes s (<[Z.to_nat ix := v]> (volumes_ s)).

(** [dirty_[ix]++]. *)
Definition bump_dirty (s : t) (ix : Z) : outcome t :=
  d ← index (dirty_ s) ix;
  mret (with_dirty s (<[Z.to_nat ix := d + 1]> (dirty_ s))).

Definition exists_ (s : t) (addr : LogicAddr) : outcome bool :=
  let gen := extract_gen addr in
  let vol := extract_vol addr in
  volix ← mod_size gen s;
  let '(status, actual_gen) := MetaVolume.get_generation (meta_ s) volix in
  if decide (status ≠ AKU_SUCCESS) then mret false
  else
    let '(status, nblocks) := MetaVolume.get_nblocks (meta_ s) volix in
    if decide (status ≠ AKU_SUCCESS) then mret false
    else mret (bool_decide (actual_gen = gen) && bool_decide (vol < nblocks)).

Definition read_block (s : t) (addr : LogicAddr)
  : outcome (aku_Status * option Block) :=
  let gen := extract_gen addr in
  let vol := extract_vol addr in
  volix ← mod_size gen s;
  let '(status, actual_gen) := MetaVolume.get_generation (meta_ s) volix in
  if decide (status ≠ AKU_SUCCESS) then mret (AKU_EBAD_ARG, None)
  else
    let '(status, nblocks) := MetaVolume.get_nblocks (meta_ s) volix in
    if decide (status ≠ AKU_SUCCESS) then mret (AKU_EBAD_ARG, None)
    else if decide (actual_gen ≠ gen ∨ nblocks <= vol)
    then mret (AKU_EBAD_ARG, None)
    else
      let dest := replicate AKU_BLOCK_SIZE Byte.x00 in
      v ← index (volumes_ s) volix;
      let '(status, bytes) := Volume.read_block v vol in
      let dest := overwrite dest bytes in
      if decide (status ≠ AKU_SUCCESS) then mret (status, None)
      else
        let block := mkBlock dest addr in
        mret (status, Some block).

Definition advance_volume (s : t) : outcome t :=
  cv ← mod_size (u32 (current_volume_ s + 1)) s;
  let s := with_current_volume s (u32 cv) in
  let '(status, gen) :=
    MetaVolume.get_generation (meta_ s) (current_volume_ s) in
  let s := with_current_gen s gen in
  if decide (status ≠ AKU_SUCCESS)
  then Panics "Can't read generation of the next volume"
  else
    let '(status, nblocks) :=
      MetaVolume.get_nblocks (meta_ s) (current_volume_ s) in
    if decide (status ≠ AKU_SUCCESS)
    then Panics "Can't read nblocks of the next volume"
    else if decide (nblocks ≠ 0) then
      let s := with_current_gen s (u32 (current_gen_ s + size (volumes_ s))) in
      let '(status, m) :=
        MetaVolume.set_generation (meta_ s) (current_volume_ s)
                                  (current_gen_ s) in
      let s := with_meta s m in
      if decide (status ≠ AKU_SUCCESS)
      then Panics "Invalid BlockStore state, can't reset volume's generation"
      else
        let '(status, m) :=
          MetaVolume.set_nblocks (meta_ s) (current_volume_ s) 0 in
        let s := with_meta s m in
        if decide (status ≠ AKU_SUCCESS)
        then Panics "Invalid BlockStore state, can't reset volume's nblocks"
        else
          v ← index (volumes_ s) (current_volume_ s);
          let s := store_volume s (current_volume_ s) (Volume.reset v) in
          bump_dirty s (current_volume_ s)
    else mret s.

Definition append_block (s : t) (data : list Byte.byte)
  : outcome ((aku_Status * LogicAddr) * t) :=
  v ← index (volumes_ s) (current_volume_ s);
  let '((status, block_addr), v) := Volume.append_block v data in
  let s := store_volume s (current_volume_ s) v in
  if decide (status = AKU_EOVERFLOW) then
    s ← advance_volume s;
    v ← at_ (volumes_ s) (current_volume_ s);
    let '((status, block_addr), v) := Volume.append_block v data in
    let s := store_volume s (current_volume_ s) v in
    if decide (status ≠ AKU_SUCCESS) then mret ((status, 0), s)
    else mret ((status, make_logic (current_gen_ s) block_addr), s)
  else
    let '(status, m) :=
      MetaVolume.set_nblocks (meta_ s) (current_volume_ s)
                             (u32 (block_addr + 1)) in
    let s := with_meta s m in
    if decide (status ≠ AKU_SUCCESS) then Panics "Invalid BlockStore state"
    else
      s ← bump_dirty s (current_volume_ s);
      mret ((status, make_logic (current_gen_ s) block_addr), s).

(** One iteration of the loop of [flush], at index [ix]. *)
Definition flush_step (s : t) (ix : nat) : outcome t :=
  d ← index (dirty_ s) (Z.of_nat ix);
  if decide (d ≠ 0) then
    let s := with_dirty s (<[ix := 0]> (dirty_ s)) in
    v ← index (volumes_ s) (Z.of_nat ix);
    mret (store_volume s (Z.of_nat ix) (Volume.flush v))
  else mret s.

(** The loop of [flush] over the indices [ixs]. *)
Fixpoint flush_loop (s : t) (ixs : list nat) : outcome t :=
  match ixs with
  | [] => mret s
  | ix :: ixs => s ← flush_step s ix; flush_loop s ixs
  end.

Definition flush (s : t) : outcome t :=
  s ← flush_loop s (seq 0 (length (dirty_ s)));
  mret (with_meta s (MetaVolume.flush (meta_ s))).

End Store.

Section Construct.

Context {V M : Type} `{!Volume.Ops V} `{!MetaVolume.Ops M}.

(** [MetaVolume::open_existing(path)] and
    [Volume::open_existing(path, nblocks)], the factories of the
    collaborators; their code lives in other translation units. *)
Variable meta_open_existing : string -> outcome M.
Variable volume_open_existing : string -> Z -> outcome V.

(** The first loop of the constructor, from the 32-bit index [ix] on: for
    every path the block count of the slot is read, the volume is opened
    with it and pushed, together with a zero dirty counter.  (The index
    wraps at [2^32]; the recursion over the paths is the loop as long as
    there are fewer paths than that.) *)
Fixpoint open_volumes (meta : M) (ix : Z) (volpaths : list string)
         (volumes : list V) (dirty : list Z) : outcome (list V * list Z) :=
  match volpaths with
  | [] => mret (volumes, dirty)
  | volpath :: volpaths =>
      let '(status, nblocks) := MetaVolume.get_nblocks meta ix in
      if decide (status ≠ AKU_SUCCESS) then Panics "Can't open blockstore"
      else
        uptr ← volume_open_existing volpath nblocks;
        open_volumes meta (u32 (ix + 1)) volpaths
                     (volumes ++ [uptr]) (dirty ++ [0])
  end.

(** The second loop: [total_size_] accumulates the sizes in a
    [size_t]. *)
Definition sum_sizes (volumes : list V) : Z :=
  fold_left (fun total vol => u64 (total + Volume.get_size vol)) volumes 0.

(** The third loop, at index [i] with the volumes [rest] from [i] on still
    to visit: the first volume with free space becomes the current one.
    [cv] and [gen] are the values of [current_volume_] and [current_gen_]
    so far; they are returned as they are when no volume has free
    space. *)
Fixpoint find_current (meta : M) (i : Z) (rest : list V) (cv gen : Z)
  : outcome (Z * Z) :=
  match rest with
  | [] => mret (cv, gen)
  | vol :: rest =>
      let '(status, curr_gen) := MetaVolume.get_generation meta i in
      let '(status, nblocks) :=
        if decide (status = AKU_SUCCESS) then MetaVolume.get_nblocks meta i
        else (status, 0) in
      if decide (status ≠ AKU_SUCCESS) then Panics "Meta-volume corrupted"
      else if decide (nblocks < Volume.get_size vol)
      then mret (u32 i, curr_gen)
      else find_current meta (i + 1) rest cv gen
  end.

(** The constructor [BlockStore::BlockStore(metapath, volpaths)].  It does
    not initialise [current_volume_] and [current_gen_]; [cv0] and [gen0]
    are the indeterminate values the two members hold before the third
    loop. *)
Definition ctor (metapath : string) (volpaths : list string) (cv0 gen0 : Z)
  : outcome (@t V M) :=
  meta ← meta_open_existing metapath;
  '(volumes, dirty) ← open_volumes meta 0 volpaths [] [];
  let total_size := sum_sizes volumes in
  '(cv, gen) ← find_current meta 0 volumes cv0 gen0;
  mret (mk meta volumes dirty cv gen total_size).

(** [BlockStore::open]: the constructed store behind a shared pointer. *)
Definition open (metapath : string) (volpaths : list string) (cv0 gen0 : Z)
  : outcome (@t V M) :=
  ctor metapath volpaths cv0 gen0.

End Construct.
End BlockStore.

Arguments BlockStore.t V M : clear implicits.
Arguments BlockStore.mk {V M} _ _ _ _ _ _.

(** A store the member functions can work on: it has volumes, fewer than
    [2^32] of them, one dirty counter for each, and [current_volume_]
    designates one of them. *)
Record wf {V M : Type} (s : BlockStore.t V M) : Prop := mk_wf {
  wf_volumes : 0 < size (BlockStore.volumes_ s) < 2 ^ 32;
  wf_dirty : length (BlockStore.dirty_ s) = length (BlockStore.volumes_ s);
  wf_current :
    0 <= BlockStore.current_volume_ s < size (BlockStore.volumes_ s)
}.

(** The slot an address resolves to, [generation mod volume_count]. *)
Definition slot_of {V M : Type} (s : BlockStore.t V M) (addr : LogicAddr) : Z :=
  extract_gen addr mod size (BlockStore.volumes_ s).

(** The slot a rotation moves to, [(current_volume + 1) mod volume_count]. *)
Definition next_slot {V M : Type} (s : BlockStore.t V M) : Z :=
  (BlockStore.current_volume_ s + 1) mod size (BlockStore.volumes_ s).

(** ** Sequences of calls *)

(** The calls of the interface that change a store. *)
Inductive operation : Type :=
| Append (data : list Byte.byte)
| Flush.

(** One call: the store it leaves (the status and the address of an append
    are dropped). *)
Definition apply_operation {V M : Type} `{!Volume.Ops V} `{!MetaVolume.Ops M}
           (s : BlockStore.t V M) (o : operation)
  : outcome (BlockStore.t V M) :=
  match o with
  | Append data => '(_, s') ← BlockStore.append_block s data; mret s'
  | Flush => BlockStore.flush s
  end.

(** The calls [ops] one after the other. *)
Fixpoint run {V M : Type} `{!Volume.Ops V} `{!MetaVolume.Ops M}
         (s : BlockStore.t V M) (ops : list operation)
  : outcome (BlockStore.t V M) :=
  match ops with
  | [] => mret s
  | o :: ops => s' ← apply_operation s o; run s' ops
  end.

(** The store is well-formed, has [n] volumes, and the generation its
    registry holds for [slot], when readable, is [gen] bumped by the number
    of volumes between one and [bumps] times. *)
Definition bumped {V M : Type} `{!MetaVolume.Ops M}
           (gen n slot bumps : Z) (s : BlockStore.t V M) : Prop :=
  wf s /\
  size (BlockStore.volumes_ s) = n /\
  forall g,
    MetaVolume.get_generation (BlockStore.meta_ s) slot = (AKU_SUCCESS, g) ->
    exists j, 1 <= j <= bumps /\ g = u32 (gen + j * n).

(** ** The contracts of the collaborators *)

(** Modelled from the spec: [MetaVolume] is a registry that holds one
    (generation, block count) pair for every volume slot, with fields that
    are read and written one by one.  A field that was written reads back,
    writing one field of a slot leaves the others alone, and [flush] does
    not change what the registry holds. *)
Class MetaVolumeLaws (M : Type) `{!MetaVolume.Ops M} : Prop := {
  get_set_generation : forall m ix g m',
    MetaVolume.set_generation m ix g = (AKU_SUCCESS, m') ->
    MetaVolume.get_generation m' ix = (AKU_SUCCESS, g);
  get_nblocks_set_generation : forall m ix g m' jx,
    MetaVolume.set_generation m ix g = (AKU_SUCCESS, m') ->
    MetaVolume.get_nblocks m' jx = MetaVolume.get_nblocks m jx;
  get_set_nblocks : forall m ix n m',
    MetaVolume.set_nblocks m ix n = (AKU_SUCCESS, m') ->
    MetaVolume.get_nblocks m' ix = (AKU_SUCCESS, n);
  get_generation_set_nblocks : forall m ix n m' jx,
    MetaVolume.set_nblocks m ix n = (AKU_SUCCESS, m') ->
    MetaVolume.get_generation m' jx = MetaVolume.get_generation m jx;
  get_generation_flush : forall m ix,
    MetaVolume.get_generation (MetaVolume.flush m) ix =
    MetaVolume.get_generation m ix;
  get_nblocks_flush : forall m ix,
    MetaVolume.get_nblocks (MetaVolume.flush m) ix =
    MetaVolume.get_nblocks m ix
}.

(** Modelled from the spec: [Volume] is an append-only sequence of blocks;
    a block that was appended at an offset is read back at that offset. *)
Class VolumeLaws (V : Type) `{!Volume.Ops V} : Prop := {
  read_append : forall v data off v',
    Volume.append_block v data = ((AKU_SUCCESS, off), v') ->
    Volume.read_block v' off = (AKU_SUCCESS, data)
}.

(** Modelled from the spec: the registry holds one pair per slot, so
    writing a field of one slot leaves the same field of every other slot
    as it was. *)
Class MetaVolumeFrame (M : Type) `{!MetaVolume.Ops M} : Prop := {
  get_generation_set_generation_ne : forall m ix g m' jx,
    MetaVolume.set_generation m ix g = (AKU_SUCCESS, m') ->
    ix <> jx ->
    MetaVolume.get_generation m' jx = MetaVolume.get_generation m jx;
  get_nblocks_set_nblocks_ne : forall m ix n m' jx,
    MetaVolume.set_nblocks m ix n = (AKU_SUCCESS, m') ->
    ix <> jx ->
    MetaVolume.get_nblocks m' jx = MetaVolume.get_nblocks m jx
}.

(** Modelled from the spec: [flush] makes a volume durable; it does not
    change what a read returns. *)
Class VolumeFlushLaws (V : Type) `{!Volume.Ops V} : Prop := {
  read_flush : forall v off,
    Volume.read_block (Volume.flush v) off = Volume.read_block v off
}.

(** ** Reference implementations of the collaborators *)

(** [l !! i] for an index that is a machine integer. *)
Definition nth_Z {A : Type} (l : list A) (i : Z) : option A :=
  if decide (0 <= i) then l !! Z.to_nat i else None.

Module MemVolume.

(** Modelled from the spec: a [Volume] of [capacity] blocks kept in
    memory.  [blocks] are the blocks appended since the last reset, so the
    write cursor is their number; [flushes] counts the calls of [flush];
    when [faulty] is set the backing storage fails every read and write
    with an I/O error. *)
Record t : Type := mk {
  capacity : Z;
  blocks : list (list Byte.byte);
  flushes : nat;
  faulty : bool
}.

Definition read_block (v : t) (off : BlockAddr)
  : aku_Status * list Byte.byte :=
  if faulty v then (AKU_EIO, [])
  else
    match nth_Z (blocks v) off with
    | Some b => (AKU_SUCCESS, b)
    | None => (AKU_EBAD_ARG, [])
    end.

Definition append_block (v : t) (data : list Byte.byte)
  : (aku_Status * BlockAddr) * t :=
  if decide (capacity v <= size (blocks v)) then ((AKU_EOVERFLOW, 0), v)
  else if faulty v then ((AKU_EIO, 0), v)
  else
    ((AKU_SUCCESS, size (blocks v)),
     mk (capacity v) (blocks v ++ [data]) (flushes v) (faulty v)).

Definition reset (v : t) : t := mk (capacity v) [] (flushes v) (faulty v).

Definition flush (v : t) : t :=
  mk (capacity v) (blocks v) (S (flushes v)) (faulty v).

Definition get_size (v : t) : Z := capacity v.

#[global] Instance volume_ops : Volume.Ops t := {
  Volume.read_block := read_block;
  Volume.append_block := append_block;
  Volume.reset := reset;
  Volume.flush := flush;
  Volume.get_size := get_size
}.

End MemVolume.

Module MemMeta.

(** Modelled from the spec: a [MetaVolume] kept in memory, the list of
    the (generation, block count) pairs of the slots.  A slot outside the
    list is an invalid argument; when [faulty] is set the backing storage
    fails every access with an I/O error. *)
Record t : Type := mk {
  slots : list (Z * Z);
  faulty : bool
}.

Definition get_generation (m : t) (ix : Z) : aku_Status * Z :=
  if faulty m then (AKU_EIO, 0)
  else
    match nth_Z (slots m) ix with
    | Some (gen, _) => (AKU_SUCCESS, gen)
    | None => (AKU_EBAD_ARG, 0)
    end.

Definition get_nblocks (m : t) (ix : Z) : aku_Status * Z :=
  if faulty m then (AKU_EIO, 0)
  else
    match nth_Z (slots m) ix with
    | Some (_, nblocks) => (AKU_SUCCESS, nblocks)
    | None => (AKU_EBAD_ARG, 0)
    end.

Definition set_generation (m : t) (ix : Z) (gen : Z) : aku_Status * t :=
  if faulty m then (AKU_EIO, m)
  else
    match nth_Z (slots m) ix with
    | Some (_, nblocks) =>
        (AKU_SUCCESS,
         mk (<[Z.to_nat ix := (gen, nblocks)]> (slots m)) (faulty m))
    | None => (AKU_EBAD_ARG, m)
    end.

Definition set_nblocks (m : t) (ix : Z) (nblocks : Z) : aku_Status * t :=
  if faulty m then (AKU_EIO, m)
  else
    match nth_Z (slots m) ix with
    | Some (gen, _) =>
        (AKU_SUCCESS,
         mk (<[Z.to_nat ix := (gen, nblocks)]> (slots m)) (faulty m))
    | None => (AKU_EBAD_ARG, m)
    end.

Definition flush (m : t) : t := m.

#[global] Instance meta_ops : MetaVolume.Ops t := {
  MetaVolume.get_generation := get_generation;
  MetaVolume.get_nblocks := get_nblocks;
  MetaVolume.set_generation := set_generation;
  MetaVolume.set_nblocks := set_nblocks;
  MetaVolume.flush := flush
}.

End MemMeta.

(** A store over the reference implementations. *)
Abbreviation MemStore := (BlockStore.t MemVolume.t MemMeta.t).

(** A healthy volume of capacity [cap] holding [bs]. *)
Definition volume_of (cap : Z) (bs : list (list Byte.byte)) : MemVolume.t :=
  MemVolume.mk cap bs 0 false.

(** A healthy registry holding [sl]. *)
Definition meta_of (sl : list (Z * Z)) : MemMeta.t := MemMeta.mk sl false.

(** Sample blocks of four bytes. *)
Definition block_a : list Byte.byte := [Byte.x61; Byte.x61; Byte.x61; Byte.x61].
Definition block_b : list Byte.byte := [Byte.x62; Byte.x62; Byte.x62; Byte.x62].
Definition block_c : list Byte.byte := [Byte.x63; Byte.x63; Byte.x63; Byte.x63].

(** ** Sample stores *)

(** The block size of the sample stores. *)
Definition sample_block_size : nat := 4.

(** Two volumes of one block each, just created: slot [i] has generation
    [i] and no block, and the first slot is current. *)
Definition store_fresh : MemStore :=
  BlockStore.mk (meta_of [(0, 0); (1, 0)])
                [volume_of 1 []; volume_of 1 []] [0; 0] 0 0 2.

(** [store_fresh] after [block_a] was appended: the first volume is full. *)
Definition store_one_block : MemStore :=
  BlockStore.mk (meta_of [(0, 1); (1, 0)])
                [volume_of 1 [block_a]; volume_of 1 []] [1; 0] 0 0 2.

(** [store_one_block] after [block_b] was appended: the append overflowed
    the first volume, rotated and wrote to the second one. *)
Definition store_rotated : MemStore :=
  BlockStore.mk (meta_of [(0, 1); (1, 0)])
                [volume_of 1 [block_a]; volume_of 1 [block_b]] [1; 0] 1 1 2.

(** Two volumes of two blocks each, both full, the second one current: the
    next append wraps around to the first slot. *)
Definition store_full_ring : MemStore :=
  BlockStore.mk (meta_of [(0, 2); (1, 2)])
                [volume_of 2 [block_a; block_b]; volume_of 2 [block_b; block_c]]
                [0; 0] 1 1 4.

(** [store_full_ring] after a rotation: the first slot has been reset and
    carries generation 2. *)
Definition store_after_wrap : MemStore :=
  BlockStore.mk (meta_of [(2, 0); (1, 2)])
                [volume_of 2 []; volume_of 2 [block_b; block_c]]
                [1; 0] 0 2 4.

(** [store_after_wrap] after two appends to the slot that was reset and a
    flush: the slot holds two blocks again, under generation 2. *)
Definition store_rewritten : MemStore :=
  BlockStore.mk (meta_of [(2, 2); (1, 2)])
                [MemVolume.mk 2 [block_a; block_c] 1 false;
                 volume_of 2 [block_b; block_c]]
                [0; 0] 0 2 4.

(** One volume with room for three blocks, holding two, whose backing
    storage fails with an I/O error. *)
Definition store_faulty : MemStore :=
  BlockStore.mk (meta_of [(0, 2)])
                [MemVolume.mk 3 [block_a; block_b] 0 true] [0] 0 0 3.

(** Three volumes of two blocks; the first and the third have unflushed
    changes. *)
Definition store_dirty : MemStore :=
  BlockStore.mk (meta_of [(3, 2); (1, 0); (2, 1)])
                [volume_of 2 [block_a; block_b]; volume_of 2 [];
                 volume_of 2 [block_c]]
                [3; 0; 1] 2 2 6.

(** [store_faulty] after an append. *)
Definition store_faulty_after : MemStore :=
  BlockStore.mk (meta_of [(0, 1)])
                [MemVolume.mk 3 [block_a; block_b] 0 true] [1] 0 0 3.

(** ** Sample files *)

(** A registry file of three slots and volume files of two blocks; a
    volume opened with a block count holds that many blocks. *)
Definition sample_meta_open (metapath : string) : outcome MemMeta.t :=
  Returns (meta_of [(3, 2); (1, 1); (2, 0)]).

Definition sample_volume_open (volpath : string) (nblocks : Z)
  : outcome MemVolume.t :=
  Returns (volume_of 2 (replicate (Z.to_nat nblocks) block_a)).

(** A registry file whose two slots are full. *)
Definition packed_meta_open (metapath : string) : outcome MemMeta.t :=
  Returns (meta_of [(0, 2); (1, 2)]).

(** The paths of three, and of two, volume files. *)
Definition three_paths : list string := ["v0"; "v1"; "v2"]%string.
Definition two_paths : list string := ["v0"; "v1"]%string.

(** The store [open] builds from the sample files, and the one it builds
    from the packed registry when the two members start as 77 and 88. *)
Definition store_opened : MemStore :=
  BlockStore.mk (meta_of [(3, 2); (1, 1); (2, 0)])
                [volume_of 2 [block_a; block_a]; volume_of 2 [block_a];
                 volume_of 2 []]
                [0; 0; 0] 1 1 6.

Definition store_opened_packed : MemStore :=
  BlockStore.mk (meta_of [(0, 2); (1, 2)])
                [volume_of 2 [block_a; block_a];
                 volume_of 2 [block_a; block_a]]
                [0; 0] 77 88 4.

(** Two full volumes of one block each whose registry records no block:
    [store_rotated] after one more append. *)
Definition store_stuck : MemStore :=
  BlockStore.mk (meta_of [(2, 0); (1, 0)])
                [volume_of 1 [block_c]; volume_of 1 [block_b]] [2; 0] 0 2 2.

(** * Verification *)

(** ** Machine integers and addressing *)

Lemma u32_small (x : Z) : is_u32 x -> u32 x = x.
Proof. intros Hx. unfold u32. apply Z.mod_small. exact Hx. Qed.

Lemma u64_small (x : Z) : is_u64 x -> u64 x = x.
Proof. intros Hx. unfold u64. apply Z.mod_small. exact Hx. Qed.

Lemma u32_range (x : Z) : is_u32 (u32 x).
Proof. unfold is_u32, u32. apply Z.mod_pos_bound. lia. Qed.

Lemma is_u32_u64 (x : Z) : is_u32 x -> is_u64 x.
Proof. unfold is_u32, is_u64. lia. Qed.

(** The two halves of an address occupy disjoint bits. *)
Lemma halves_disjoint (g o : Z) :
  is_u32 o -> Z.land (Z.shiftl g 32) o = 0.
Proof.
  intros [Ho1 Ho2]. apply Z.bits_inj'. intros n Hn.
  rewrite Z.land_spec, Z.bits_0.
  destruct (Z.lt_ge_cases n 32) as [Hlt | Hge].
  - rewrite Z.shiftl_spec_low by exact Hlt. reflexivity.
  - destruct (Z.eq_dec o 0) as [-> | Hne].
    + rewrite Z.bits_0. apply andb_false_r.
    + rewrite (Z.bits_above_log2 o n); [apply andb_false_r | lia |].
      apply Z.lt_le_trans with 32; [| exact Hge].
      apply Z.log2_lt_pow2; lia.
Qed.

Lemma lor_halves (g o : Z) :
  is_u32 o -> Z.lor (Z.shiftl g 32) o = g * 2 ^ 32 + o.
Proof.
  intros Ho. pose proof (halves_disjoint g o Ho) as Hd.
  rewrite <- Z.lxor_lor by exact Hd.
  rewrite <- Z.add_nocarry_lxor by exact Hd.
  rewrite Z.shiftl_mul_pow2 by lia. reflexivity.
Qed.

Lemma make_logic_value (g o : Z) :
  is_u32 g -> is_u32 o -> make_logic g o = g * 2 ^ 32 + o.
Proof.
  intros Hg Ho. unfold make_logic.
  rewrite (u64_small g) by (apply is_u32_u64; exact Hg).
  rewrite u64_small.
  - apply lor_halves. exact Ho.
  - rewrite Z.shiftl_mul_pow2 by lia. unfold is_u32, is_u64 in *. lia.
Qed.

Lemma extract_gen_value (g o : Z) :
  is_u32 g -> is_u32 o -> extract_gen (g * 2 ^ 32 + o) = g.
Proof.
  intros Hg Ho. unfold extract_gen.
  rewrite Z.shiftr_div_pow2 by lia.
  rewrite Z.div_add_l by lia.
  rewrite (Z.div_small o) by exact Ho.
  rewrite Z.add_0_r. apply u32_small. exact Hg.
Qed.

Lemma extract_vol_value (g o : Z) :
  is_u32 g -> is_u32 o -> extract_vol (g * 2 ^ 32 + o) = o.
Proof.
  intros Hg Ho. unfold extract_vol.
  change 4294967295 with (Z.ones 32).
  rewrite Z.land_ones by lia.
  rewrite Z.add_comm, Z.mod_add by lia.
  rewrite (Z.mod_small o) by exact Ho.
  apply u32_small. exact Ho.
Qed.

(** C9.  For a 32-bit generation [g] and a 32-bit offset [o],
    [make_logic g o] is [(g << 32) | o], no conversion in it wraps (the
    result is the number [g * 2^32 + o], below [2^64]), and [extract_gen]
    and [extract_vol] give back [g] and [o]. *)
Theorem make_logic_roundtrip (g o : Z) :
  is_u32 g -> is_u32 o ->
  make_logic g o = Z.lor (Z.shiftl g 32) o /\
  make_logic g o = g * 2 ^ 32 + o /\
  is_u64 (make_logic g o) /\
  extract_gen (make_logic g o) = g /\
  extract_vol (make_logic g o) = o.
Proof.
  intros Hg Ho.
  rewrite (make_logic_value g o Hg Ho).
  rewrite (lor_halves g o Ho).
  rewrite (extract_gen_value g o Hg Ho), (extract_vol_value g o Hg Ho).
  repeat split; try reflexivity; unfold is_u32 in *; lia.
Qed.

Lemma make_logic_roundtrip_witness :
  make_logic 7 9 = Z.lor (Z.shiftl 7 32) 9 /\
  make_logic 7 9 = 7 * 2 ^ 32 + 9 /\
  is_u64 (make_logic 7 9) /\
  extract_gen (make_logic 7 9) = 7 /\
  extract_vol (make_logic 7 9) = 9.
Proof. apply (make_logic_roundtrip 7 9); unfold is_u32; lia. Defined.

(** ** Vectors *)

Lemma size_nonneg {A : Type} (v : list A) : 0 <= size v.
Proof. unfold size. lia. Qed.

Lemma size_pos {A : Type} (v : list A) : v <> [] -> 0 < size v.
Proof. destruct v; [congruence | unfold size; simpl; lia]. Qed.

Lemma index_lookup {A : Type} (v : list A) (i : Z) (x : A) :
  0 <= i -> v !! Z.to_nat i = Some x -> index v i = Returns x.
Proof.
  intros Hi Hx. unfold index.
  destruct (decide (0 <= i)) as [_ | Hn]; [| contradiction].
  rewrite Hx. reflexivity.
Qed.

Lemma at_lookup {A : Type} (v : list A) (i : Z) (x : A) :
  0 <= i -> v !! Z.to_nat i = Some x -> at_ v i = Returns x.
Proof.
  intros Hi Hx. unfold at_.
  destruct (decide (0 <= i)) as [_ | Hn]; [| contradiction].
  rewrite Hx. reflexivity.
Qed.

Lemma index_in_range {A : Type} (v : list A) (i : Z) :
  0 <= i < size v -> exists x, v !! Z.to_nat i = Some x /\ index v i = Returns x.
Proof.
  intros [Hi Hlt].
  destruct (lookup_lt_is_Some_2 v (Z.to_nat i)) as [x Hx].
  { unfold size in Hlt. lia. }
  exists x. split; [exact Hx | apply index_lookup; assumption].
Qed.

Lemma index_returns {A : Type} (v : list A) (i : Z) (x : A) :
  index v i = Returns x -> 0 <= i /\ v !! Z.to_nat i = Some x.
Proof.
  unfold index. destruct (decide (0 <= i)) as [Hi | Hi]; [| discriminate].
  destruct (v !! Z.to_nat i) as [y |] eqn:Hy; [| discriminate].
  intros [= ->]. split; [exact Hi | reflexivity].
Qed.

(** A write through the data pointer of a vector does not resize it. *)
Lemma length_overwrite {A : Type} (dest src : list A) :
  length (overwrite dest src) = length dest.
Proof.
  unfold overwrite. rewrite length_app, length_take, length_drop. lia.
Qed.

(** Writing as many bytes as the buffer holds replaces its contents. *)
Lemma overwrite_full {A : Type} (dest src : list A) :
  length src = length dest -> overwrite dest src = src.
Proof.
  intros Hlen. unfold overwrite.
  rewrite <- Hlen, firstn_all, drop_ge by lia.
  apply app_nil_r.
Qed.

(** ** Resolution of an address: [exists] and [read_block] *)

Section Resolution.

Context {V M : Type} `{!Volume.Ops V} `{!MetaVolume.Ops M}.
Variable AKU_BLOCK_SIZE : nat.

Implicit Types (s : BlockStore.t V M) (addr : LogicAddr).

Lemma mod_size_returns s (x : Z) :
  BlockStore.volumes_ s <> [] ->
  BlockStore.mod_size x s = Returns (x mod size (BlockStore.volumes_ s)).
Proof.
  intros Hne. unfold BlockStore.mod_size.
  pose proof (size_pos _ Hne).
  destruct (decide (size (BlockStore.volumes_ s) = 0)); [lia | reflexivity].
Qed.

Lemma slot_of_range s addr :
  BlockStore.volumes_ s <> [] ->
  0 <= slot_of s addr < size (BlockStore.volumes_ s).
Proof.
  intros Hne. unfold slot_of. apply Z.mod_pos_bound.
  apply size_pos. exact Hne.
Qed.

(** [exists] as a function of the two lookups. *)
Lemma exists_unfold s addr :
  BlockStore.volumes_ s <> [] ->
  BlockStore.exists_ s addr =
  Returns
    (match MetaVolume.get_generation (BlockStore.meta_ s) (slot_of s addr),
           MetaVolume.get_nblocks (BlockStore.meta_ s) (slot_of s addr) with
     | (AKU_SUCCESS, actual_gen), (AKU_SUCCESS, nblocks) =>
         bool_decide (actual_gen = extract_gen addr) &&
         bool_decide (extract_vol addr < nblocks)
     | _, _ => false
     end).
Proof.
  intros Hne. unfold BlockStore.exists_.
  rewrite (mod_size_returns s _ Hne). cbn. fold (slot_of s addr).
  destruct (MetaVolume.get_generation _ _) as [sg g].
  destruct (decide (sg <> AKU_SUCCESS)) as [Hsg | Hsg].
  { destruct sg; try reflexivity. contradiction. }
  apply dec_stable in Hsg. subst sg.
  destruct (MetaVolume.get_nblocks _ _) as [sn n].
  destruct (decide (sn <> AKU_SUCCESS)) as [Hsn | Hsn].
  { destruct sn; try reflexivity. contradiction. }
  apply dec_stable in Hsn. subst sn. reflexivity.
Qed.

(** C5.  On a store that has volumes, [exists] returns a boolean for
    every address and never an error.  The boolean is [true] exactly when
    the slot [generation mod volume_count] stores the generation of the
    address and a block count above its offset, and it is [false] as soon
    as one of the two MetaVolume lookups fails. *)
Theorem exists_total s addr :
  BlockStore.volumes_ s <> [] ->
  exists b : bool,
    BlockStore.exists_ s addr = Returns b /\
    (b = true <->
     exists nblocks,
       MetaVolume.get_generation (BlockStore.meta_ s) (slot_of s addr) =
         (AKU_SUCCESS, extract_gen addr) /\
       MetaVolume.get_nblocks (BlockStore.meta_ s) (slot_of s addr) =
         (AKU_SUCCESS, nblocks) /\
       extract_vol addr < nblocks) /\
    (fst (MetaVolume.get_generation (BlockStore.meta_ s) (slot_of s addr))
       <> AKU_SUCCESS \/
     fst (MetaVolume.get_nblocks (BlockStore.meta_ s) (slot_of s addr))
       <> AKU_SUCCESS ->
     b = false).
Proof.
  intros Hne. eexists. split; [apply exists_unfold; exact Hne |].
  destruct (MetaVolume.get_generation _ _) as [sg g].
  destruct (MetaVolume.get_nblocks _ _) as [sn n].
  split.
  - split.
    + intros Hb. destruct sg; try discriminate.
      destruct sn; try discriminate.
      apply andb_prop in Hb as [Hg Hn].
      apply bool_decide_eq_true in Hg, Hn. subst g.
      exists n. auto.
    + intros (n' & [= -> ->] & [= -> ->] & Hlt).
      apply andb_true_intro.
      split; apply bool_decide_eq_true; [reflexivity | exact Hlt].
  - cbn. intros [Hf | Hf].
    + destruct sg; try reflexivity. contradiction.
    + destruct sg, sn; try reflexivity. contradiction.
Qed.

(** [read_block] up to the Volume read: the three early returns. *)
Lemma read_block_rejects s addr :
  BlockStore.volumes_ s <> [] ->
  (fst (MetaVolume.get_generation (BlockStore.meta_ s) (slot_of s addr))
     <> AKU_SUCCESS \/
   fst (MetaVolume.get_nblocks (BlockStore.meta_ s) (slot_of s addr))
     <> AKU_SUCCESS \/
   snd (MetaVolume.get_generation (BlockStore.meta_ s) (slot_of s addr))
     <> extract_gen addr \/
   snd (MetaVolume.get_nblocks (BlockStore.meta_ s) (slot_of s addr))
     <= extract_vol addr) ->
  BlockStore.read_block AKU_BLOCK_SIZE s addr = Returns (AKU_EBAD_ARG, None).
Proof.
  intros Hne Hbad. unfold BlockStore.read_block.
  rewrite (mod_size_returns s _ Hne). cbn. fold (slot_of s addr).
  destruct (MetaVolume.get_generation _ _) as [sg g].
  destruct (MetaVolume.get_nblocks _ _) as [sn n]. cbn in Hbad.
  destruct (decide (sg <> AKU_SUCCESS)); [reflexivity |].
  destruct (decide (sn <> AKU_SUCCESS)); [reflexivity |].
  destruct (decide (g <> extract_gen addr \/ n <= extract_vol addr))
    as [| Hok]; [reflexivity |].
  exfalso. destruct Hbad as [? | [? | [? | ?]]]; auto.
Qed.

(** [read_block] once the address has passed the checks. *)
Lemma read_block_resolved s addr (nblocks : Z) (v : V) :
  BlockStore.volumes_ s <> [] ->
  MetaVolume.get_generation (BlockStore.meta_ s) (slot_of s addr) =
    (AKU_SUCCESS, extract_gen addr) ->
  MetaVolume.get_nblocks (BlockStore.meta_ s) (slot_of s addr) =
    (AKU_SUCCESS, nblocks) ->
  extract_vol addr < nblocks ->
  BlockStore.volumes_ s !! Z.to_nat (slot_of s addr) = Some v ->
  BlockStore.read_block AKU_BLOCK_SIZE s addr =
  Returns
    (let '(status, bytes) := Volume.read_block v (extract_vol addr) in
     if decide (status <> AKU_SUCCESS) then (status, None)
     else (status,
           Some (mkBlock
                   (overwrite (replicate AKU_BLOCK_SIZE Byte.x00) bytes)
                   addr))).
Proof.
  intros Hne Hg Hn Hlt Hv. unfold BlockStore.read_block.
  rewrite (mod_size_returns s _ Hne). cbn. fold (slot_of s addr).
  rewrite Hg, Hn.
  destruct (decide (AKU_SUCCESS <> AKU_SUCCESS)); [congruence |].
  destruct (decide (extract_gen addr <> extract_gen addr \/
                    nblocks <= extract_vol addr)) as [[? | ?] |];
    [congruence | lia |].
  rewrite (index_lookup _ _ v) by
    (trivial; apply (slot_of_range s addr Hne)).
  cbn. destruct (Volume.read_block v (extract_vol addr)) as [st bytes].
  destruct (decide (st <> AKU_SUCCESS)); reflexivity.
Qed.

(** C4.  On a store that has volumes, for every address: if the lookup
    of the generation or of the block count fails, [read_block] returns
    [AKU_EBAD_ARG]; if the stored generation differs from the address's
    or the offset is not below the block count, it returns
    [AKU_EBAD_ARG]; and if the checks pass and the read of the volume in
    the slot fails, it returns the status of the volume, whatever it
    is. *)
Theorem read_block_error_mapping s addr :
  BlockStore.volumes_ s <> [] ->
  let lookup_gen :=
    MetaVolume.get_generation (BlockStore.meta_ s) (slot_of s addr) in
  let lookup_nblocks :=
    MetaVolume.get_nblocks (BlockStore.meta_ s) (slot_of s addr) in
  (fst lookup_gen <> AKU_SUCCESS \/ fst lookup_nblocks <> AKU_SUCCESS ->
   BlockStore.read_block AKU_BLOCK_SIZE s addr =
     Returns (AKU_EBAD_ARG, None)) /\
  (snd lookup_gen <> extract_gen addr \/
   snd lookup_nblocks <= extract_vol addr ->
   BlockStore.read_block AKU_BLOCK_SIZE s addr =
     Returns (AKU_EBAD_ARG, None)) /\
  (exists v,
     BlockStore.volumes_ s !! Z.to_nat (slot_of s addr) = Some v /\
     forall nblocks status bytes,
       lookup_gen = (AKU_SUCCESS, extract_gen addr) ->
       lookup_nblocks = (AKU_SUCCESS, nblocks) ->
       extract_vol addr < nblocks ->
       Volume.read_block v (extract_vol addr) = (status, bytes) ->
       status <> AKU_SUCCESS ->
       BlockStore.read_block AKU_BLOCK_SIZE s addr =
         Returns (status, None)).
Proof.
  intros Hne lookup_gen lookup_nblocks. repeat split.
  - intros Hfail. apply read_block_rejects; [exact Hne |].
    fold lookup_gen lookup_nblocks. tauto.
  - intros Hstale. apply read_block_rejects; [exact Hne |].
    fold lookup_gen lookup_nblocks. tauto.
  - destruct (index_in_range (BlockStore.volumes_ s) (slot_of s addr))
      as (v & Hv & _); [apply slot_of_range; exact Hne |].
    exists v. split; [exact Hv |].
    intros nblocks status bytes Hg Hn Hlt Hread Hstatus.
    rewrite (read_block_resolved s addr nblocks v Hne Hg Hn Hlt Hv).
    rewrite Hread.
    destruct (decide (status <> AKU_SUCCESS)); [reflexivity | contradiction].
Qed.

(** C10.  When [read_block] returns [AKU_SUCCESS] it returns a block;
    the block stores the address that was asked for and its size is the
    fixed block size. *)
Theorem read_block_success_block s addr (result : option Block) :
  BlockStore.read_block AKU_BLOCK_SIZE s addr =
    Returns (AKU_SUCCESS, result) ->
  exists block,
    result = Some block /\
    addr_ block = addr /\
    get_size block = Z.of_nat AKU_BLOCK_SIZE.
Proof.
  unfold BlockStore.read_block.
  destruct (BlockStore.mod_size _ s) as [volix | | |]; try discriminate.
  cbn.
  destruct (MetaVolume.get_generation _ _) as [sg g].
  destruct (decide (sg <> AKU_SUCCESS)); [discriminate |].
  destruct (MetaVolume.get_nblocks _ _) as [sn nb].
  destruct (decide (sn <> AKU_SUCCESS)); [discriminate |].
  destruct (decide (_ \/ _)); [discriminate |].
  destruct (index _ _) as [v | | |]; try discriminate.
  cbn. destruct (Volume.read_block v _) as [st bytes].
  destruct (decide (st <> AKU_SUCCESS)) as [Hst | Hst].
  - intros [= -> _]. contradiction.
  - intros [= _ <-]. eexists. split; [reflexivity |].
    split; [reflexivity |].
    unfold get_size, size. cbn.
    rewrite length_overwrite, length_replicate. reflexivity.
Qed.

End Resolution.

(** ** Rotation: [advance_volume] *)

Section Rotation.

Context {V M : Type} `{!Volume.Ops V} `{!MetaVolume.Ops M}.

Implicit Types (s : BlockStore.t V M) (addr : LogicAddr).

(** On a well-formed store the 32-bit computation of the next slot is
    [(current_volume_ + 1) mod volume_count]. *)
Lemma next_volume s :
  wf s ->
  BlockStore.mod_size (u32 (BlockStore.current_volume_ s + 1)) s =
    Returns (next_slot s) /\
  u32 (next_slot s) = next_slot s /\
  0 <= next_slot s < size (BlockStore.volumes_ s).
Proof.
  intros [Hn _ Hcv]. unfold BlockStore.mod_size, next_slot.
  destruct (decide (size (BlockStore.volumes_ s) = 0)); [lia |].
  rewrite (u32_small (BlockStore.current_volume_ s + 1))
    by (unfold is_u32; lia).
  pose proof (Z.mod_pos_bound (BlockStore.current_volume_ s + 1)
                (size (BlockStore.volumes_ s))) as Hb.
  repeat split; try lia.
  apply u32_small. unfold is_u32. lia.
Qed.

(** The bump of a 32-bit generation by the number of volumes changes it. *)
Lemma bump_changes_generation (gen n : Z) :
  is_u32 gen -> 0 < n < 2 ^ 32 -> u32 (gen + n) <> gen.
Proof.
  intros [Hg1 Hg2] [Hn1 Hn2]. unfold u32.
  destruct (Z.lt_ge_cases (gen + n) (2 ^ 32)) as [Hlt | Hge].
  - rewrite Z.mod_small by lia. lia.
  - replace (gen + n) with ((gen + n - 2 ^ 32) + 1 * 2 ^ 32) by lia.
    rewrite Z.mod_add by lia. rewrite Z.mod_small by lia. lia.
Qed.

(** What a rotation that returns has done. *)
Lemma advance_volume_returns s s' :
  wf s ->
  BlockStore.advance_volume s = Returns s' ->
  exists gen nblocks,
    MetaVolume.get_generation (BlockStore.meta_ s) (next_slot s) =
      (AKU_SUCCESS, gen) /\
    MetaVolume.get_nblocks (BlockStore.meta_ s) (next_slot s) =
      (AKU_SUCCESS, nblocks) /\
    ((nblocks = 0 /\
      s' = BlockStore.mk (BlockStore.meta_ s) (BlockStore.volumes_ s)
             (BlockStore.dirty_ s) (next_slot s) gen
             (BlockStore.total_size_ s)) \/
     (nblocks <> 0 /\
      exists m1 m2 v d,
        MetaVolume.set_generation (BlockStore.meta_ s) (next_slot s)
          (u32 (gen + size (BlockStore.volumes_ s))) = (AKU_SUCCESS, m1) /\
        MetaVolume.set_nblocks m1 (next_slot s) 0 = (AKU_SUCCESS, m2) /\
        BlockStore.volumes_ s !! Z.to_nat (next_slot s) = Some v /\
        BlockStore.dirty_ s !! Z.to_nat (next_slot s) = Some d /\
        s' = BlockStore.mk m2
               (<[Z.to_nat (next_slot s) := Volume.reset v]>
                  (BlockStore.volumes_ s))
               (<[Z.to_nat (next_slot s) := d + 1]> (BlockStore.dirty_ s))
               (next_slot s)
               (u32 (gen + size (BlockStore.volumes_ s)))
               (BlockStore.total_size_ s))).
Proof.
  intros Hwf. destruct (next_volume s Hwf) as (Hmod & Hu & Hrange).
  unfold BlockStore.advance_volume. rewrite Hmod. cbn. rewrite Hu.
  destruct (MetaVolume.get_generation _ _) as [sg gen].
  destruct (decide (sg <> AKU_SUCCESS)) as [| Hsg]; [discriminate |].
  apply dec_stable in Hsg. subst sg.
  destruct (MetaVolume.get_nblocks _ _) as [sn nblocks].
  destruct (decide (sn <> AKU_SUCCESS)) as [| Hsn]; [discriminate |].
  apply dec_stable in Hsn. subst sn.
  destruct (decide (nblocks <> 0)) as [Hnb | Hnb].
  - destruct (MetaVolume.set_generation _ _ _) as [s1 m1] eqn:Hset1.
    destruct (decide (s1 <> AKU_SUCCESS)) as [| Hs1]; [discriminate |].
    apply dec_stable in Hs1. subst s1.
    destruct (MetaVolume.set_nblocks _ _ _) as [s2 m2] eqn:Hset2.
    destruct (decide (s2 <> AKU_SUCCESS)) as [| Hs2]; [discriminate |].
    apply dec_stable in Hs2. subst s2.
    destruct (index (BlockStore.volumes_ s) (next_slot s))
      as [v | | |] eqn:Hv; try (cbn; discriminate).
    apply index_returns in Hv as [_ Hv]. cbn.
    unfold BlockStore.bump_dirty. cbn.
    destruct (index (BlockStore.dirty_ s) (next_slot s))
      as [d | | |] eqn:Hd; try (cbn; discriminate).
    apply index_returns in Hd as [_ Hd]. cbn.
    intros [= <-]. exists gen, nblocks.
    split; [reflexivity |]. split; [reflexivity |].
    right. split; [exact Hnb |].
    exists m1, m2, v, d. repeat split; (assumption || reflexivity).
  - apply dec_stable in Hnb. intros [= <-]. exists gen, nblocks.
    split; [reflexivity |]. split; [reflexivity |].
    left. split; [exact Hnb | reflexivity].
Qed.

(** C6.  On a well-formed store whose next slot
    [(current_volume + 1) mod volume_count] has a readable generation [gen]
    and block count [nblocks], [advance_volume] makes that slot current.
    With [nblocks] zero it loads [gen] into [current_gen_] and leaves the
    registry, the volumes and the dirty counters as they are.  With
    [nblocks] nonzero the new generation is [gen] plus the number of
    volumes (a 32-bit sum); it is written to the registry, then the block
    count 0 is, the volume of the slot is reset and the slot's dirty counter
    goes up by one. *)
Theorem advance_volume_spec s (gen nblocks : Z) :
  wf s ->
  MetaVolume.get_generation (BlockStore.meta_ s) (next_slot s) =
    (AKU_SUCCESS, gen) ->
  MetaVolume.get_nblocks (BlockStore.meta_ s) (next_slot s) =
    (AKU_SUCCESS, nblocks) ->
  (nblocks = 0 ->
   BlockStore.advance_volume s =
   Returns (BlockStore.mk (BlockStore.meta_ s) (BlockStore.volumes_ s)
              (BlockStore.dirty_ s) (next_slot s) gen
              (BlockStore.total_size_ s))) /\
  (nblocks <> 0 ->
   forall m1 m2,
     MetaVolume.set_generation (BlockStore.meta_ s) (next_slot s)
       (u32 (gen + size (BlockStore.volumes_ s))) = (AKU_SUCCESS, m1) ->
     MetaVolume.set_nblocks m1 (next_slot s) 0 = (AKU_SUCCESS, m2) ->
     exists v d,
       BlockStore.volumes_ s !! Z.to_nat (next_slot s) = Some v /\
       BlockStore.dirty_ s !! Z.to_nat (next_slot s) = Some d /\
       BlockStore.advance_volume s =
       Returns (BlockStore.mk m2
                  (<[Z.to_nat (next_slot s) := Volume.reset v]>
                     (BlockStore.volumes_ s))
                  (<[Z.to_nat (next_slot s) := d + 1]> (BlockStore.dirty_ s))
                  (next_slot s)
                  (u32 (gen + size (BlockStore.volumes_ s)))
                  (BlockStore.total_size_ s))).
Proof.
  intros Hwf Hgen Hnblocks.
  destruct (next_volume s Hwf) as (Hmod & Hu & Hrange).
  unfold BlockStore.advance_volume. rewrite Hmod. cbn. rewrite Hu, Hgen.
  destruct (decide (AKU_SUCCESS <> AKU_SUCCESS)); [congruence |].
  rewrite Hnblocks.
  destruct (decide (AKU_SUCCESS <> AKU_SUCCESS)); [congruence |].
  split.
  - intros ->. destruct (decide (0 <> 0)); [congruence | reflexivity].
  - intros Hnb m1 m2 Hset1 Hset2.
    destruct (decide (nblocks <> 0)); [| contradiction].
    rewrite Hset1.
    destruct (decide (AKU_SUCCESS <> AKU_SUCCESS)); [congruence |].
    rewrite Hset2.
    destruct (decide (AKU_SUCCESS <> AKU_SUCCESS)); [congruence |].
    destruct (index_in_range (BlockStore.volumes_ s) (next_slot s) Hrange)
      as (v & Hv & Hiv).
    destruct (index_in_range (BlockStore.dirty_ s) (next_slot s))
      as (d & Hd & Hid).
    { unfold size in *. rewrite (wf_dirty s Hwf). exact Hrange. }
    exists v, d. split; [exact Hv |]. split; [exact Hd |].
    rewrite Hiv. cbn. unfold BlockStore.bump_dirty. cbn.
    rewrite Hid. reflexivity.
Qed.

End Rotation.

(** ** Staleness of the addresses of a slot that was reset *)

Section Staleness.

Context {V M : Type} `{!Volume.Ops V} `{!MetaVolume.Ops M}.
Context `{!MetaVolumeLaws M}.
Variable AKU_BLOCK_SIZE : nat.

Implicit Types (s : BlockStore.t V M) (addr : LogicAddr).

Lemma extract_gen_range addr : is_u32 (extract_gen addr).
Proof. unfold extract_gen. apply u32_range. Qed.

(** After the reset of a slot the registry holds the bumped generation for
    it. *)
Lemma generation_after_reset (m m1 m2 : M) (ix new_gen : Z) :
  MetaVolume.set_generation m ix new_gen = (AKU_SUCCESS, m1) ->
  MetaVolume.set_nblocks m1 ix 0 = (AKU_SUCCESS, m2) ->
  MetaVolume.get_generation m2 ix = (AKU_SUCCESS, new_gen).
Proof.
  intros Hset1 Hset2.
  rewrite (get_generation_set_nblocks m1 ix 0 m2 ix Hset2).
  apply (get_set_generation m ix new_gen m1 Hset1).
Qed.

End Staleness.

(** ** The write path: [append_block] *)

Section Append.

Context {V M : Type} `{!Volume.Ops V} `{!MetaVolume.Ops M}.

Implicit Types (s : BlockStore.t V M) (data : list Byte.byte).

(** The first attempt, when the volume reports anything but an overflow:
    the block count [offset + 1] is written to the registry, the dirty
    counter of the slot goes up, and the call returns the status of that
    write together with the address made of the current generation and the
    offset. *)
Lemma append_block_first_attempt s data (v v' : V) (status : aku_Status)
      (offset : BlockAddr) (m' : M) (d : Z) :
  0 <= BlockStore.current_volume_ s ->
  BlockStore.volumes_ s !! Z.to_nat (BlockStore.current_volume_ s) = Some v ->
  BlockStore.dirty_ s !! Z.to_nat (BlockStore.current_volume_ s) = Some d ->
  Volume.append_block v data = ((status, offset), v') ->
  status <> AKU_EOVERFLOW ->
  MetaVolume.set_nblocks (BlockStore.meta_ s) (BlockStore.current_volume_ s)
    (u32 (offset + 1)) = (AKU_SUCCESS, m') ->
  BlockStore.append_block s data =
  Returns
    ((AKU_SUCCESS, make_logic (BlockStore.current_gen_ s) offset),
     BlockStore.mk m'
       (<[Z.to_nat (BlockStore.current_volume_ s) := v']>
          (BlockStore.volumes_ s))
       (<[Z.to_nat (BlockStore.current_volume_ s) := d + 1]>
          (BlockStore.dirty_ s))
       (BlockStore.current_volume_ s) (BlockStore.current_gen_ s)
       (BlockStore.total_size_ s)).
Proof.
  intros Hcv Hv Hd Happ Hst Hset. unfold BlockStore.append_block.
  rewrite (index_lookup _ _ v Hcv Hv). cbn. rewrite Happ.
  destruct (decide (status = AKU_EOVERFLOW)); [contradiction |].
  cbn. rewrite Hset.
  destruct (decide (AKU_SUCCESS <> AKU_SUCCESS)); [congruence |].
  unfold BlockStore.bump_dirty. cbn.
  rewrite (index_lookup _ _ d Hcv Hd). reflexivity.
Qed.

(** The retry after an overflow: the store is the one the rotation left,
    with the volume of the new current slot as the second attempt left it.
    Nothing is written to the registry and no dirty counter is touched
    after the rotation. *)
Lemma append_block_retry s s1 data (v v' w w' : V) (offset offset1 : BlockAddr)
      (status : aku_Status) :
  0 <= BlockStore.current_volume_ s ->
  BlockStore.volumes_ s !! Z.to_nat (BlockStore.current_volume_ s) = Some v ->
  Volume.append_block v data = ((AKU_EOVERFLOW, offset), v') ->
  BlockStore.advance_volume
    (BlockStore.store_volume s (BlockStore.current_volume_ s) v') =
    Returns s1 ->
  0 <= BlockStore.current_volume_ s1 ->
  BlockStore.volumes_ s1 !! Z.to_nat (BlockStore.current_volume_ s1) = Some w ->
  Volume.append_block w data = ((status, offset1), w') ->
  BlockStore.append_block s data =
  Returns
    ((status,
      if decide (status <> AKU_SUCCESS) then 0
      else make_logic (BlockStore.current_gen_ s1) offset1),
     BlockStore.mk (BlockStore.meta_ s1)
       (<[Z.to_nat (BlockStore.current_volume_ s1) := w']>
          (BlockStore.volumes_ s1))
       (BlockStore.dirty_ s1) (BlockStore.current_volume_ s1)
       (BlockStore.current_gen_ s1) (BlockStore.total_size_ s1)).
Proof.
  intros Hcv Hv Happ Hadv Hcv1 Hw Happ1. unfold BlockStore.append_block.
  rewrite (index_lookup _ _ v Hcv Hv). cbn. rewrite Happ.
  destruct (decide (AKU_EOVERFLOW = AKU_EOVERFLOW)); [| congruence].
  rewrite Hadv. cbn.
  rewrite (at_lookup _ _ w Hcv1 Hw). cbn. rewrite Happ1.
  destruct (decide (status <> AKU_SUCCESS)); reflexivity.
Qed.

End Append.

(** ** [flush] *)

Section Flush.

Context {V M : Type} `{!Volume.Ops V} `{!MetaVolume.Ops M}.

Implicit Types (s : BlockStore.t V M).

(** One iteration of the loop. *)
Lemma flush_step_lookup s (ix : nat) (d : Z) (v : V) :
  BlockStore.dirty_ s !! ix = Some d ->
  BlockStore.volumes_ s !! ix = Some v ->
  BlockStore.flush_step s ix =
  Returns
    (if decide (d <> 0)
     then BlockStore.mk (BlockStore.meta_ s)
            (<[ix := Volume.flush v]> (BlockStore.volumes_ s))
            (<[ix := 0]> (BlockStore.dirty_ s))
            (BlockStore.current_volume_ s) (BlockStore.current_gen_ s)
            (BlockStore.total_size_ s)
     else s).
Proof.
  intros Hd Hv. unfold BlockStore.flush_step.
  rewrite (index_lookup _ _ d) by (rewrite ?Nat2Z.id; trivial; lia).
  cbn. destruct (decide (d <> 0)); [| reflexivity].
  cbn. rewrite (index_lookup _ _ v) by (rewrite ?Nat2Z.id; trivial; lia).
  cbn. unfold BlockStore.store_volume, BlockStore.with_volumes. cbn.
  rewrite Nat2Z.id. reflexivity.
Qed.

(** The loop over the indices [k, k + n): it returns, keeps everything
    below [k] and every field but the volumes and the counters, zeroes the
    counters from [k] on and flushes exactly the volumes from [k] on whose
    counter was not zero. *)
Lemma flush_loop_spec (n k : nat) s :
  length (BlockStore.dirty_ s) = length (BlockStore.volumes_ s) ->
  (k + n)%nat = length (BlockStore.dirty_ s) ->
  exists s',
    BlockStore.flush_loop s (seq k n) = Returns s' /\
    BlockStore.meta_ s' = BlockStore.meta_ s /\
    BlockStore.current_volume_ s' = BlockStore.current_volume_ s /\
    BlockStore.current_gen_ s' = BlockStore.current_gen_ s /\
    BlockStore.total_size_ s' = BlockStore.total_size_ s /\
    length (BlockStore.dirty_ s') = length (BlockStore.dirty_ s) /\
    length (BlockStore.volumes_ s') = length (BlockStore.volumes_ s) /\
    (forall ix, (ix < k)%nat ->
       BlockStore.dirty_ s' !! ix = BlockStore.dirty_ s !! ix /\
       BlockStore.volumes_ s' !! ix = BlockStore.volumes_ s !! ix) /\
    (forall ix d v, (k <= ix)%nat ->
       BlockStore.dirty_ s !! ix = Some d ->
       BlockStore.volumes_ s !! ix = Some v ->
       BlockStore.dirty_ s' !! ix = Some 0 /\
       BlockStore.volumes_ s' !! ix =
         Some (if decide (d <> 0) then Volume.flush v else v)).
Proof.
  revert k s. induction n as [| n IH]; intros k s Hlen Hk.
  - exists s. cbn. repeat split; try reflexivity;
      match goal with
      | Hd : BlockStore.dirty_ s !! _ = Some _ |- _ =>
          apply lookup_lt_Some in Hd; lia
      end.
  - destruct (lookup_lt_is_Some_2 (BlockStore.dirty_ s) k) as [dk Hdk];
      [lia |].
    destruct (lookup_lt_is_Some_2 (BlockStore.volumes_ s) k) as [vk Hvk];
      [lia |].
    cbn [seq BlockStore.flush_loop].
    rewrite (flush_step_lookup s k dk vk Hdk Hvk). cbn.
    set (s1 := if decide (dk <> 0) then _ else s).
    assert (Hs1 :
      BlockStore.meta_ s1 = BlockStore.meta_ s /\
      BlockStore.current_volume_ s1 = BlockStore.current_volume_ s /\
      BlockStore.current_gen_ s1 = BlockStore.current_gen_ s /\
      BlockStore.total_size_ s1 = BlockStore.total_size_ s /\
      BlockStore.dirty_ s1 =
        <[k := if decide (dk <> 0) then 0 else dk]> (BlockStore.dirty_ s) /\
      BlockStore.volumes_ s1 =
        <[k := if decide (dk <> 0) then Volume.flush vk else vk]>
          (BlockStore.volumes_ s)).
    { subst s1. destruct (decide (dk <> 0)); cbn; repeat split;
        try reflexivity; symmetry; apply list_insert_id; assumption. }
    destruct Hs1 as (Hm1 & Hc1 & Hg1 & Ht1 & Hd1 & Hv1).
    destruct (IH (S k) s1) as
      (s' & Hrun & Hm & Hc & Hg & Ht & Hld & Hlv & Hlow & Hhigh).
    { rewrite Hd1, Hv1, !length_insert. exact Hlen. }
    { rewrite Hd1, length_insert. lia. }
    exists s'. split; [exact Hrun |].
    rewrite Hm, Hc, Hg, Ht, Hld, Hlv, Hm1, Hc1, Hg1, Ht1, Hd1, Hv1,
      !length_insert.
    repeat split; try reflexivity.
    + destruct (Hlow ix) as [Hx _]; [lia |]. rewrite Hx, Hd1.
      apply list_lookup_insert_ne. lia.
    + destruct (Hlow ix) as [_ Hx]; [lia |]. rewrite Hx, Hv1.
      apply list_lookup_insert_ne. lia.
    + destruct (decide (ix = k)) as [-> | Hne].
      * destruct (Hlow k) as [Hx _]; [lia |]. rewrite Hx, Hd1.
        rewrite list_lookup_insert_eq by lia.
        assert (d = dk) as -> by congruence.
        destruct (decide (dk <> 0)) as [| Hz]; [reflexivity |].
        apply dec_stable in Hz. congruence.
      * destruct (Hhigh ix d v) as [Hx _]; [lia | | | exact Hx].
        -- rewrite Hd1, list_lookup_insert_ne by lia. assumption.
        -- rewrite Hv1, list_lookup_insert_ne by lia. assumption.
    + destruct (decide (ix = k)) as [-> | Hne].
      * destruct (Hlow k) as [_ Hx]; [lia |]. rewrite Hx, Hv1.
        rewrite list_lookup_insert_eq by lia.
        assert (d = dk) as -> by congruence.
        assert (v = vk) as -> by congruence. reflexivity.
      * destruct (Hhigh ix d v) as [_ Hx]; [lia | | | exact Hx].
        -- rewrite Hd1, list_lookup_insert_ne by lia. assumption.
        -- rewrite Hv1, list_lookup_insert_ne by lia. assumption.
Qed.

(** With every counter at zero the loop changes nothing. *)
Lemma flush_loop_clean s :
  length (BlockStore.dirty_ s) = length (BlockStore.volumes_ s) ->
  (forall ix d, BlockStore.dirty_ s !! ix = Some d -> d = 0) ->
  BlockStore.flush_loop s (seq 0 (length (BlockStore.dirty_ s))) = Returns s.
Proof.
  intros Hlen Hzero.
  destruct (flush_loop_spec (length (BlockStore.dirty_ s)) 0 s Hlen eq_refl)
    as (s' & Hrun & Hm & Hc & Hg & Ht & Hld & Hlv & _ & Hhigh).
  rewrite Hrun. f_equal.
  assert (Heqd : BlockStore.dirty_ s' = BlockStore.dirty_ s).
  { apply list_eq. intros ix.
    destruct (BlockStore.dirty_ s !! ix) as [d |] eqn:Hd.
    - destruct (lookup_lt_is_Some_2 (BlockStore.volumes_ s) ix) as [v Hv].
      { apply lookup_lt_Some in Hd. lia. }
      destruct (Hhigh ix d v) as [Hx _]; [lia | assumption | assumption |].
      rewrite Hx. f_equal. symmetry. apply (Hzero ix d Hd).
    - apply lookup_ge_None in Hd. apply lookup_ge_None. lia. }
  assert (Heqv : BlockStore.volumes_ s' = BlockStore.volumes_ s).
  { apply list_eq. intros ix.
    destruct (BlockStore.volumes_ s !! ix) as [v |] eqn:Hv.
    - destruct (lookup_lt_is_Some_2 (BlockStore.dirty_ s) ix) as [d Hd].
      { apply lookup_lt_Some in Hv. lia. }
      destruct (Hhigh ix d v) as [_ Hx]; [lia | assumption | assumption |].
      rewrite Hx. rewrite (Hzero ix d Hd).
      destruct (decide (0 <> 0)); [congruence | reflexivity].
    - apply lookup_ge_None in Hv. apply lookup_ge_None. lia. }
  destruct s, s'. cbn in *. congruence.
Qed.

End Flush.

Section FlushTwice.

Context {V M : Type} `{!Volume.Ops V} `{!MetaVolume.Ops M}.
Context `{!MetaVolumeLaws M}.

Implicit Types (s : BlockStore.t V M).

(** C8.  On a store with one dirty counter per volume, [flush] returns a
    store in which exactly the volumes whose counter was nonzero have been
    flushed, every counter is zero and the registry has been flushed.  A
    second [flush] right after it flushes the registry again and no volume:
    the volumes and the counters are the same, and so is every generation
    and block count the registry holds. *)
Theorem flush_spec s :
  length (BlockStore.dirty_ s) = length (BlockStore.volumes_ s) ->
  exists s',
    BlockStore.flush s = Returns s' /\
    (forall ix d v,
       BlockStore.dirty_ s !! ix = Some d ->
       BlockStore.volumes_ s !! ix = Some v ->
       BlockStore.volumes_ s' !! ix =
         Some (if decide (d <> 0) then Volume.flush v else v)) /\
    length (BlockStore.volumes_ s') = length (BlockStore.volumes_ s) /\
    BlockStore.dirty_ s' = replicate (length (BlockStore.dirty_ s)) 0 /\
    BlockStore.meta_ s' = MetaVolume.flush (BlockStore.meta_ s) /\
    BlockStore.current_volume_ s' = BlockStore.current_volume_ s /\
    BlockStore.current_gen_ s' = BlockStore.current_gen_ s /\
    exists s'',
      BlockStore.flush s' = Returns s'' /\
      BlockStore.volumes_ s'' = BlockStore.volumes_ s' /\
      BlockStore.dirty_ s'' = BlockStore.dirty_ s' /\
      BlockStore.meta_ s'' = MetaVolume.flush (BlockStore.meta_ s') /\
      BlockStore.current_volume_ s'' = BlockStore.current_volume_ s' /\
      BlockStore.current_gen_ s'' = BlockStore.current_gen_ s' /\
      forall ix,
        MetaVolume.get_generation (BlockStore.meta_ s'') ix =
          MetaVolume.get_generation (BlockStore.meta_ s') ix /\
        MetaVolume.get_nblocks (BlockStore.meta_ s'') ix =
          MetaVolume.get_nblocks (BlockStore.meta_ s') ix.
Proof.
  intros Hlen.
  destruct (flush_loop_spec (length (BlockStore.dirty_ s)) 0 s Hlen eq_refl)
    as (s1 & Hrun & Hm & Hc & Hg & Ht & Hld & Hlv & _ & Hhigh).
  assert (Hd1 : BlockStore.dirty_ s1 =
                replicate (length (BlockStore.dirty_ s)) 0).
  { apply list_eq. intros ix.
    destruct (BlockStore.dirty_ s !! ix) as [d |] eqn:Hd.
    - destruct (lookup_lt_is_Some_2 (BlockStore.volumes_ s) ix) as [v Hv].
      { apply lookup_lt_Some in Hd. lia. }
      destruct (Hhigh ix d v) as [Hx _]; [lia | assumption | assumption |].
      rewrite Hx. symmetry. apply lookup_replicate_2.
      apply lookup_lt_Some in Hd. exact Hd.
    - apply lookup_ge_None in Hd.
      rewrite (proj2 (lookup_ge_None _ _)) by lia.
      symmetry. apply lookup_ge_None. rewrite length_replicate. exact Hd. }
  set (s' := BlockStore.with_meta s1 (MetaVolume.flush (BlockStore.meta_ s1))).
  exists s'. split.
  { unfold BlockStore.flush. rewrite Hrun. reflexivity. }
  split.
  { intros ix d v Hd Hv. cbn. apply (Hhigh ix d v); [lia | assumption..]. }
  split; [exact Hlv |]. split; [exact Hd1 |].
  split; [cbn; rewrite Hm; reflexivity |].
  split; [exact Hc |]. split; [exact Hg |].
  exists (BlockStore.with_meta s' (MetaVolume.flush (BlockStore.meta_ s'))).
  split.
  { unfold BlockStore.flush. rewrite (flush_loop_clean s').
    - reflexivity.
    - cbn. lia.
    - cbn. rewrite Hd1. intros ix d Hd.
      apply lookup_replicate_1 in Hd. tauto. }
  repeat split; cbn.
  - apply get_generation_flush.
  - apply get_nblocks_flush.
Qed.

End FlushTwice.

(** ** The reference implementations honour the contracts *)

Lemma nth_Z_insert {A : Type} (l : list A) (ix jx : Z) (x y : A) :
  nth_Z l ix = Some x ->
  nth_Z (<[Z.to_nat ix := y]> l) jx =
  if decide (jx = ix) then Some y else nth_Z l jx.
Proof.
  unfold nth_Z. destruct (decide (0 <= ix)) as [Hix | Hix]; [| discriminate].
  intros Hx. apply lookup_lt_Some in Hx.
  destruct (decide (jx = ix)) as [-> | Hne].
  - destruct (decide (0 <= ix)); [| contradiction].
    apply list_lookup_insert_eq. exact Hx.
  - destruct (decide (0 <= jx)); [| reflexivity].
    apply list_lookup_insert_ne. lia.
Qed.

#[global] Instance MemMeta_laws : MetaVolumeLaws MemMeta.t.
Proof.
  split; cbn.
  - intros [sl ft] ix g m'.
    unfold MemMeta.set_generation, MemMeta.get_generation. cbn.
    destruct ft; [discriminate |].
    destruct (nth_Z sl ix) as [[g0 n0] |] eqn:Hix; [| discriminate].
    intros [= <-]. cbn. rewrite (nth_Z_insert sl ix ix _ _ Hix).
    destruct (decide (ix = ix)); [reflexivity | congruence].
  - intros [sl ft] ix g m' jx.
    unfold MemMeta.set_generation, MemMeta.get_nblocks. cbn.
    destruct ft; [discriminate |].
    destruct (nth_Z sl ix) as [[g0 n0] |] eqn:Hix; [| discriminate].
    intros [= <-]. cbn. rewrite (nth_Z_insert sl ix jx _ _ Hix).
    destruct (decide (jx = ix)) as [-> |]; [rewrite Hix |]; reflexivity.
  - intros [sl ft] ix n m'.
    unfold MemMeta.set_nblocks, MemMeta.get_nblocks. cbn.
    destruct ft; [discriminate |].
    destruct (nth_Z sl ix) as [[g0 n0] |] eqn:Hix; [| discriminate].
    intros [= <-]. cbn. rewrite (nth_Z_insert sl ix ix _ _ Hix).
    destruct (decide (ix = ix)); [reflexivity | congruence].
  - intros [sl ft] ix n m' jx.
    unfold MemMeta.set_nblocks, MemMeta.get_generation. cbn.
    destruct ft; [discriminate |].
    destruct (nth_Z sl ix) as [[g0 n0] |] eqn:Hix; [| discriminate].
    intros [= <-]. cbn. rewrite (nth_Z_insert sl ix jx _ _ Hix).
    destruct (decide (jx = ix)) as [-> |]; [rewrite Hix |]; reflexivity.
  - reflexivity.
  - reflexivity.
Qed.

#[global] Instance MemVolume_laws : VolumeLaws MemVolume.t.
Proof.
  split; cbn. intros [cap bs fl ft] data off v'.
  unfold MemVolume.append_block, MemVolume.read_block. cbn.
  destruct (decide (cap <= size bs)); [discriminate |].
  destruct ft; [discriminate |].
  intros [= <- <-]. cbn. unfold nth_Z, size.
  destruct (decide (0 <= Z.of_nat (length bs))); [| lia].
  rewrite Nat2Z.id, lookup_app_r by lia.
  rewrite Nat.sub_diag. reflexivity.
Qed.

(** ** Reading back what was appended *)

Section RoundTrip.

Context {V M : Type} `{!Volume.Ops V} `{!MetaVolume.Ops M}.
Context `{!VolumeLaws V} `{!MetaVolumeLaws M}.
Variable AKU_BLOCK_SIZE : nat.

Implicit Types (s : BlockStore.t V M) (data : list Byte.byte).

(** X8.  A block that the current volume accepts at the first attempt is
    read back from the address [append_block] returns, provided the store
    caches the generation of the current slot and that generation resolves
    to the slot. *)
Lemma append_read_first_attempt s data (v v' : V) (offset : BlockAddr)
      (m' : M) :
  wf s ->
  is_u32 (BlockStore.current_gen_ s) ->
  BlockStore.current_gen_ s mod size (BlockStore.volumes_ s) =
    BlockStore.current_volume_ s ->
  MetaVolume.get_generation (BlockStore.meta_ s) (BlockStore.current_volume_ s)
    = (AKU_SUCCESS, BlockStore.current_gen_ s) ->
  length data = AKU_BLOCK_SIZE ->
  BlockStore.volumes_ s !! Z.to_nat (BlockStore.current_volume_ s) = Some v ->
  Volume.append_block v data = ((AKU_SUCCESS, offset), v') ->
  0 <= offset < 2 ^ 32 - 1 ->
  MetaVolume.set_nblocks (BlockStore.meta_ s) (BlockStore.current_volume_ s)
    (u32 (offset + 1)) = (AKU_SUCCESS, m') ->
  exists s',
    BlockStore.append_block s data =
      Returns
        ((AKU_SUCCESS, make_logic (BlockStore.current_gen_ s) offset), s') /\
    BlockStore.read_block AKU_BLOCK_SIZE s'
      (make_logic (BlockStore.current_gen_ s) offset) =
      Returns
        (AKU_SUCCESS,
         Some (mkBlock data (make_logic (BlockStore.current_gen_ s) offset))).
Proof.
  intros Hwf Hgen Hring Hcached Hlen Hv Happ Hoff Hset.
  pose proof (wf_current s Hwf) as Hcv.
  pose proof (wf_volumes s Hwf) as Hn.
  assert (Hoff32 : is_u32 offset) by (unfold is_u32; lia).
  destruct (lookup_lt_is_Some_2 (BlockStore.dirty_ s)
              (Z.to_nat (BlockStore.current_volume_ s))) as [d Hd].
  { rewrite (wf_dirty s Hwf). unfold size in Hcv. lia. }
  eexists. split.
  { apply (append_block_first_attempt s data v v' AKU_SUCCESS offset m' d);
      try assumption; [lia | discriminate]. }
  set (s' := BlockStore.mk _ _ _ _ _ _).
  set (addr := make_logic (BlockStore.current_gen_ s) offset).
  assert (Hg : extract_gen addr = BlockStore.current_gen_ s).
  { subst addr. rewrite make_logic_value by assumption.
    apply extract_gen_value; assumption. }
  assert (Ho : extract_vol addr = offset).
  { subst addr. rewrite make_logic_value by assumption.
    apply extract_vol_value; assumption. }
  assert (Hslot : slot_of s' addr = BlockStore.current_volume_ s).
  { unfold slot_of, size. cbn. rewrite length_insert, Hg. exact Hring. }
  assert (Hne : BlockStore.volumes_ s' <> []).
  { intros Hnil. apply (f_equal length) in Hnil. cbn in Hnil.
    rewrite length_insert in Hnil. unfold size in Hn. cbn in Hnil. lia. }
  rewrite (read_block_resolved AKU_BLOCK_SIZE s' addr (u32 (offset + 1)) v').
  - rewrite Ho, (read_append v data offset v' Happ).
    destruct (decide (AKU_SUCCESS <> AKU_SUCCESS)); [congruence |].
    rewrite overwrite_full by (rewrite length_replicate; exact Hlen).
    reflexivity.
  - exact Hne.
  - rewrite Hslot, Hg. cbn.
    rewrite (get_generation_set_nblocks _ _ _ _ _ Hset). exact Hcached.
  - rewrite Hslot. cbn. apply (get_set_nblocks _ _ _ _ Hset).
  - rewrite Ho, u32_small by (unfold is_u32; lia). lia.
  - rewrite Hslot. cbn. apply list_lookup_insert_eq.
    apply lookup_lt_Some in Hv. exact Hv.
Qed.

End RoundTrip.

(** ** The properties on the sample stores *)

Ltac sample_wf :=
  split; cbn; unfold size; cbn; first [reflexivity | lia].

Lemma store_one_block_wf : wf store_one_block.
Proof. sample_wf. Qed.

Lemma store_full_ring_wf : wf store_full_ring.
Proof. sample_wf. Qed.

Lemma exists_total_witness :
  BlockStore.volumes_ store_full_ring <> [] /\
  exists b : bool,
    BlockStore.exists_ store_full_ring (make_logic 1 1) = Returns b /\
    b = true.
Proof.
  assert (Hne : BlockStore.volumes_ store_full_ring <> []) by discriminate.
  split; [exact Hne |].
  destruct (exists_total store_full_ring (make_logic 1 1) Hne)
    as (b & Hb & Hiff & _).
  exists b. split; [exact Hb |].
  apply Hiff. exists 2. vm_compute. repeat split; reflexivity.
Defined.

Lemma read_block_error_mapping_witness :
  BlockStore.volumes_ store_faulty <> [] /\
  BlockStore.read_block sample_block_size store_faulty (make_logic 0 1) =
    Returns (AKU_EIO, None).
Proof.
  assert (Hne : BlockStore.volumes_ store_faulty <> []) by discriminate.
  split; [exact Hne |].
  destruct (read_block_error_mapping sample_block_size store_faulty
              (make_logic 0 1) Hne) as (_ & _ & v & Hv & Hread).
  apply (Hread 2 AKU_EIO []).
  - reflexivity.
  - reflexivity.
  - vm_compute. reflexivity.
  - vm_compute in Hv. injection Hv as <-. reflexivity.
  - discriminate.
Defined.

Lemma read_block_success_block_witness :
  BlockStore.read_block sample_block_size store_full_ring (make_logic 1 1) =
    Returns (AKU_SUCCESS, Some (mkBlock block_c (make_logic 1 1))) /\
  exists block,
    Some (mkBlock block_c (make_logic 1 1)) = Some block /\
    addr_ block = make_logic 1 1 /\
    get_size block = Z.of_nat sample_block_size.
Proof.
  assert (Hread :
    BlockStore.read_block sample_block_size store_full_ring (make_logic 1 1) =
    Returns (AKU_SUCCESS, Some (mkBlock block_c (make_logic 1 1))))
    by (vm_compute; reflexivity).
  split; [exact Hread |].
  exact (read_block_success_block sample_block_size store_full_ring
           (make_logic 1 1) _ Hread).
Defined.

Lemma advance_volume_spec_witness :
  (wf store_full_ring /\
   BlockStore.advance_volume store_full_ring = Returns store_after_wrap) /\
  (wf store_one_block /\
   BlockStore.advance_volume store_one_block =
     Returns (BlockStore.mk (meta_of [(0, 1); (1, 0)])
                [volume_of 1 [block_a]; volume_of 1 []] [1; 0] 1 1 2)).
Proof.
  split.
  - split; [exact store_full_ring_wf |].
    destruct (advance_volume_spec store_full_ring 0 2 store_full_ring_wf)
      as [_ Hreset]; [vm_compute; reflexivity | vm_compute; reflexivity |].
    destruct (Hreset ltac:(lia) (meta_of [(2, 2); (1, 2)])
                (meta_of [(2, 0); (1, 2)]))
      as (v & d & Hv & Hd & Hadv);
      [vm_compute; reflexivity | vm_compute; reflexivity |].
    vm_compute in Hv, Hd. injection Hv as <-. injection Hd as <-.
    rewrite Hadv. vm_compute. reflexivity.
  - split; [exact store_one_block_wf |].
    destruct (advance_volume_spec store_one_block 1 0 store_one_block_wf)
      as [Hempty _]; [vm_compute; reflexivity | vm_compute; reflexivity |].
    rewrite (Hempty eq_refl). vm_compute. reflexivity.
Defined.

Lemma flush_spec_witness :
  length (BlockStore.dirty_ store_dirty) =
    length (BlockStore.volumes_ store_dirty) /\
  exists s',
    BlockStore.flush store_dirty = Returns s' /\
    MemVolume.flushes <$> BlockStore.volumes_ s' = [1; 0; 1]%nat /\
    BlockStore.dirty_ s' = [0; 0; 0] /\
    exists s'',
      BlockStore.flush s' = Returns s'' /\
      BlockStore.volumes_ s'' = BlockStore.volumes_ s'.
Proof.
  split; [reflexivity |].
  destruct (flush_spec store_dirty)
    as (s' & Hrun & Hvol & Hlen & Hdirty & _ & _ & _ & s'' & Hrun' & Hvol' & _);
    [reflexivity |].
  exists s'. split; [exact Hrun |]. split.
  - vm_compute in Hrun. injection Hrun as <-. reflexivity.
  - split; [exact Hdirty |]. exists s''. split; [exact Hrun' | exact Hvol'].
Defined.

(** ** Where the write path departs from the specification *)

(** C1.  The round trip fails for an append that rotates.  On two fresh
    volumes of one block each, the first append fills the first volume; the
    second one overflows it, rotates, writes [block_b] to the second volume
    and returns [AKU_SUCCESS] with the address (generation 1, offset 0); the
    read of that address right after returns [AKU_EBAD_ARG], because the
    retry returned without recording the block count of the slot. *)
Theorem append_read_after_rotation :
  BlockStore.append_block store_fresh block_a =
    Returns ((AKU_SUCCESS, make_logic 0 0), store_one_block) /\
  BlockStore.append_block store_one_block block_b =
    Returns ((AKU_SUCCESS, make_logic 1 0), store_rotated) /\
  length block_b = sample_block_size /\
  BlockStore.read_block sample_block_size store_rotated (make_logic 1 0) =
    Returns (AKU_EBAD_ARG, None).
Proof. repeat split; vm_compute; reflexivity. Qed.

(** C2.  An append that succeeds on the retry after a rotation commits
    nothing.  The append of [block_b] to [store_one_block] returns
    [AKU_SUCCESS] with offset 0 in slot 1, yet the registry still holds the
    block count 0 for slot 1, not 1, and the dirty counter of slot 1 is 0
    before and after the call. *)
Theorem append_after_rotation_no_commit :
  BlockStore.append_block store_one_block block_b =
    Returns ((AKU_SUCCESS, make_logic 1 0), store_rotated) /\
  BlockStore.current_volume_ store_rotated = 1 /\
  BlockStore.current_gen_ store_rotated = 1 /\
  MetaVolume.get_nblocks (BlockStore.meta_ store_rotated) 1 =
    (AKU_SUCCESS, 0) /\
  BlockStore.dirty_ store_one_block !! 1%nat = Some 0 /\
  BlockStore.dirty_ store_rotated !! 1%nat = Some 0.
Proof. repeat split; vm_compute; reflexivity. Qed.

(** C3.  A failure of the first attempt other than an overflow is not
    returned.  The volume of [store_faulty] has room and answers the append
    with [AKU_EIO]; [append_block] does not rotate, and it returns
    [AKU_SUCCESS] with the address (generation 0, offset 0) after rewriting
    the block count of the slot from 2 to 1. *)
Theorem append_first_failure_masked :
  (exists v,
     BlockStore.volumes_ store_faulty !! 0%nat = Some v /\
     Volume.append_block v block_c = ((AKU_EIO, 0), v)) /\
  BlockStore.append_block store_faulty block_c =
    Returns ((AKU_SUCCESS, make_logic 0 0), store_faulty_after) /\
  BlockStore.current_volume_ store_faulty_after =
    BlockStore.current_volume_ store_faulty /\
  BlockStore.current_gen_ store_faulty_after =
    BlockStore.current_gen_ store_faulty /\
  MetaVolume.get_nblocks (BlockStore.meta_ store_faulty) 0 =
    (AKU_SUCCESS, 2) /\
  MetaVolume.get_nblocks (BlockStore.meta_ store_faulty_after) 0 =
    (AKU_SUCCESS, 1).
Proof.
  split.
  - eexists. split; vm_compute; reflexivity.
  - repeat split; vm_compute; reflexivity.
Qed.

(** * Further properties of the code *)

(** ** Addresses *)

(** X1.  Two addresses made from 32-bit generations and offsets are equal
    only if the generations are equal and the offsets are equal. *)
Theorem make_logic_injective (g o g' o' : Z) :
  is_u32 g -> is_u32 o -> is_u32 g' -> is_u32 o' ->
  make_logic g o = make_logic g' o' ->
  g = g' /\ o = o'.
Proof.
  intros Hg Ho Hg' Ho' Heq.
  rewrite !make_logic_value in Heq by assumption.
  split.
  - rewrite <- (extract_gen_value g o Hg Ho), Heq.
    apply extract_gen_value; assumption.
  - rewrite <- (extract_vol_value g o Hg Ho), Heq.
    apply extract_vol_value; assumption.
Qed.

Lemma make_logic_injective_witness :
  make_logic 3 5 = make_logic (1 + 2) (2 + 3) /\ 3 = 1 + 2 /\ 5 = 2 + 3.
Proof.
  split; [reflexivity |].
  apply (make_logic_injective 3 5 (1 + 2) (2 + 3));
    unfold is_u32; try lia. reflexivity.
Defined.

(** X2.  Every 64-bit address is the address made of its own generation and
    offset: [extract_gen] and [extract_vol] lose nothing. *)
Theorem make_logic_extract (addr : LogicAddr) :
  is_u64 addr ->
  make_logic (extract_gen addr) (extract_vol addr) = addr.
Proof.
  intros [H0 H64].
  assert (Hg : extract_gen addr = addr / 2 ^ 32).
  { unfold extract_gen. rewrite Z.shiftr_div_pow2 by lia.
    apply u32_small. unfold is_u32. split.
    - apply Z.div_pos; lia.
    - apply Z.div_lt_upper_bound; lia. }
  assert (Ho : extract_vol addr = addr mod 2 ^ 32).
  { unfold extract_vol. change 4294967295 with (Z.ones 32).
    rewrite Z.land_ones by lia. apply u32_small.
    unfold is_u32. apply Z.mod_pos_bound. lia. }
  rewrite make_logic_value.
  - rewrite Hg, Ho. pose proof (Z.div_mod addr (2 ^ 32)). lia.
  - apply extract_gen_range.
  - unfold extract_vol. apply u32_range.
Qed.

Lemma make_logic_extract_witness :
  is_u64 18446744073709551615 /\
  make_logic (extract_gen 18446744073709551615)
             (extract_vol 18446744073709551615) = 18446744073709551615.
Proof.
  assert (H : is_u64 18446744073709551615) by (unfold is_u64; lia).
  split; [exact H | exact (make_logic_extract _ H)].
Defined.

(** ** [exists] and [read_block] agree *)

Section Agreement.

Context {V M : Type} `{!Volume.Ops V} `{!MetaVolume.Ops M}.
Variable AKU_BLOCK_SIZE : nat.

Implicit Types (s : BlockStore.t V M) (addr : LogicAddr).

(** X3.  On a store that has volumes: an address for which [exists]
    returns [false] is refused by [read_block] with [AKU_EBAD_ARG]; for an
    address for which [exists] returns [true], [read_block] returns the
    status of the read of the volume in the slot of the address; and
    [read_block] returns [AKU_SUCCESS] only for addresses for which
    [exists] returns [true]. *)
Theorem exists_read_agree s addr :
  BlockStore.volumes_ s <> [] ->
  (BlockStore.exists_ s addr = Returns false ->
   BlockStore.read_block AKU_BLOCK_SIZE s addr =
     Returns (AKU_EBAD_ARG, None)) /\
  (BlockStore.exists_ s addr = Returns true ->
   exists v result,
     BlockStore.volumes_ s !! Z.to_nat (slot_of s addr) = Some v /\
     BlockStore.read_block AKU_BLOCK_SIZE s addr =
       Returns (fst (Volume.read_block v (extract_vol addr)), result)) /\
  (forall result,
     BlockStore.read_block AKU_BLOCK_SIZE s addr =
       Returns (AKU_SUCCESS, result) ->
     BlockStore.exists_ s addr = Returns true).
Proof.
  intros Hne. rewrite (exists_unfold s addr Hne).
  destruct (MetaVolume.get_generation _ _) as [sg g] eqn:Hg.
  destruct (MetaVolume.get_nblocks _ _) as [sn nb] eqn:Hn.
  assert (Hrej :
    sg <> AKU_SUCCESS \/ sn <> AKU_SUCCESS \/ g <> extract_gen addr \/
    nb <= extract_vol addr ->
    BlockStore.read_block AKU_BLOCK_SIZE s addr =
      Returns (AKU_EBAD_ARG, None)).
  { intros Hbad. apply read_block_rejects; [exact Hne |].
    rewrite Hg, Hn. exact Hbad. }
  assert (Hok :
    sg = AKU_SUCCESS -> sn = AKU_SUCCESS -> g = extract_gen addr ->
    extract_vol addr < nb ->
    exists v,
      BlockStore.volumes_ s !! Z.to_nat (slot_of s addr) = Some v /\
      BlockStore.read_block AKU_BLOCK_SIZE s addr =
      Returns
        (let '(status, bytes) := Volume.read_block v (extract_vol addr) in
         if decide (status <> AKU_SUCCESS) then (status, None)
         else (status,
               Some (mkBlock
                       (overwrite (replicate AKU_BLOCK_SIZE Byte.x00) bytes)
                       addr)))).
  { intros -> -> -> Hlt.
    destruct (index_in_range (BlockStore.volumes_ s) (slot_of s addr))
      as (v & Hv & _); [apply slot_of_range; exact Hne |].
    exists v. split; [exact Hv |].
    apply (read_block_resolved AKU_BLOCK_SIZE s addr nb v); assumption. }
  assert (Hdec :
    (sg = AKU_SUCCESS /\ sn = AKU_SUCCESS /\ g = extract_gen addr /\
     extract_vol addr < nb) \/
    (sg <> AKU_SUCCESS \/ sn <> AKU_SUCCESS \/ g <> extract_gen addr \/
     nb <= extract_vol addr)).
  { destruct (decide (sg = AKU_SUCCESS)); [| tauto].
    destruct (decide (sn = AKU_SUCCESS)); [| tauto].
    destruct (decide (g = extract_gen addr)); [| tauto].
    destruct (decide (extract_vol addr < nb)); [tauto | right; lia]. }
  destruct Hdec as [(-> & -> & -> & Hlt) | Hbad].
  - rewrite !bool_decide_eq_true_2 by (reflexivity || exact Hlt). cbn.
    split; [discriminate |]. split.
    + intros _. destruct (Hok eq_refl eq_refl eq_refl Hlt) as (v & Hv & Hr).
      exists v. rewrite Hr.
      destruct (Volume.read_block v (extract_vol addr)) as [st b]. cbn.
      destruct (decide (st <> AKU_SUCCESS)); eauto.
    + reflexivity.
  - rewrite (Hrej Hbad). split; [reflexivity |]. split.
    + intros Htrue. exfalso.
      destruct sg; try discriminate. destruct sn; try discriminate.
      injection Htrue as Htrue. apply andb_prop in Htrue as [H1 H2].
      apply bool_decide_eq_true in H1, H2.
      destruct Hbad as [? | [? | [? | ?]]]; try congruence. lia.
    + intros result [=].
Qed.

End Agreement.

Lemma exists_read_agree_witness :
  BlockStore.volumes_ store_full_ring <> [] /\
  BlockStore.exists_ store_full_ring (make_logic 1 5) = Returns false /\
  BlockStore.read_block sample_block_size store_full_ring (make_logic 1 5) =
    Returns (AKU_EBAD_ARG, None).
Proof.
  assert (Hne : BlockStore.volumes_ store_full_ring <> []) by discriminate.
  assert (Hex : BlockStore.exists_ store_full_ring (make_logic 1 5) =
                Returns false) by (vm_compute; reflexivity).
  split; [exact Hne |]. split; [exact Hex |].
  exact (proj1 (exists_read_agree sample_block_size store_full_ring
                  (make_logic 1 5) Hne) Hex).
Defined.

(** ** Rotation keeps the store well-formed *)

Section RotationInvariants.

Context {V M : Type} `{!Volume.Ops V} `{!MetaVolume.Ops M}.

Implicit Types (s : BlockStore.t V M).

(** On a well-formed store no index of a rotation is out of range. *)
Lemma advance_volume_defined s :
  wf s ->
  BlockStore.advance_volume s <> Undefined /\
  BlockStore.advance_volume s <> Throws.
Proof.
  intros Hwf. destruct (next_volume s Hwf) as (Hmod & Hu & Hrange).
  unfold BlockStore.advance_volume. rewrite Hmod. cbn. rewrite Hu.
  destruct (MetaVolume.get_generation _ _) as [sg gen].
  destruct (decide (sg <> AKU_SUCCESS)); [split; discriminate |].
  destruct (MetaVolume.get_nblocks _ _) as [sn nblocks].
  destruct (decide (sn <> AKU_SUCCESS)); [split; discriminate |].
  destruct (decide (nblocks <> 0)); [| split; discriminate].
  destruct (MetaVolume.set_generation _ _ _) as [s1 m1].
  destruct (decide (s1 <> AKU_SUCCESS)); [split; discriminate |].
  destruct (MetaVolume.set_nblocks _ _ _) as [s2 m2].
  destruct (decide (s2 <> AKU_SUCCESS)); [split; discriminate |].
  destruct (index_in_range (BlockStore.volumes_ s) (next_slot s) Hrange)
    as (v & _ & Hiv).
  destruct (index_in_range (BlockStore.dirty_ s) (next_slot s))
    as (d & _ & Hid).
  { unfold size in *. rewrite (wf_dirty s Hwf). exact Hrange. }
  cbn. rewrite Hiv. cbn. unfold BlockStore.bump_dirty. cbn. rewrite Hid.
  split; discriminate.
Qed.

(** The store a rotation returns: well-formed, with as many volumes, on
    the next slot, and changed in that slot only. *)
Lemma advance_volume_keeps s s' :
  wf s ->
  BlockStore.advance_volume s = Returns s' ->
  wf s' /\
  size (BlockStore.volumes_ s') = size (BlockStore.volumes_ s) /\
  BlockStore.current_volume_ s' = next_slot s /\
  BlockStore.total_size_ s' = BlockStore.total_size_ s /\
  forall ix : nat,
    ix <> Z.to_nat (next_slot s) ->
    BlockStore.volumes_ s' !! ix = BlockStore.volumes_ s !! ix /\
    BlockStore.dirty_ s' !! ix = BlockStore.dirty_ s !! ix.
Proof.
  intros Hwf Hadv. destruct (next_volume s Hwf) as (_ & _ & Hrange).
  destruct (advance_volume_returns s s' Hwf Hadv)
    as (gen & nb & _ & _ & [[_ ->] | (_ & m1 & m2 & v & d & _ & _ & _ & _ & ->)]).
  - repeat split; cbn; try reflexivity;
      try apply (wf_volumes s Hwf); try apply (wf_dirty s Hwf);
      apply Hrange.
  - repeat split; cbn; unfold size in *; rewrite ?length_insert;
      try reflexivity;
      try apply (wf_volumes s Hwf); try apply (wf_dirty s Hwf);
      try apply Hrange;
      apply list_lookup_insert_ne; congruence.
Qed.

(** X4.  On a well-formed store [advance_volume] either panics or returns
    a well-formed store with the same number of volumes whose current slot
    is [(current_volume + 1) mod volume_count]; it never indexes a vector
    out of range. *)
Theorem advance_volume_safe s :
  wf s ->
  (exists msg, BlockStore.advance_volume s = Panics msg) \/
  (exists s',
     BlockStore.advance_volume s = Returns s' /\
     wf s' /\
     size (BlockStore.volumes_ s') = size (BlockStore.volumes_ s) /\
     BlockStore.current_volume_ s' = next_slot s).
Proof.
  intros Hwf. destruct (advance_volume_defined s Hwf) as [Hu Ht].
  destruct (BlockStore.advance_volume s) as [s' | msg | |] eqn:Hadv;
    try congruence.
  - right. exists s'. split; [reflexivity |].
    destruct (advance_volume_keeps s s' Hwf Hadv) as (? & ? & ? & _).
    auto.
  - left. exists msg. reflexivity.
Qed.

(** X5.  A rotation that returns leaves every volume and every dirty
    counter outside the slot it moves to as it was, and keeps
    [total_size_]. *)
Theorem advance_volume_frame s s' (ix : nat) :
  wf s ->
  BlockStore.advance_volume s = Returns s' ->
  ix <> Z.to_nat (next_slot s) ->
  BlockStore.volumes_ s' !! ix = BlockStore.volumes_ s !! ix /\
  BlockStore.dirty_ s' !! ix = BlockStore.dirty_ s !! ix /\
  BlockStore.total_size_ s' = BlockStore.total_size_ s.
Proof.
  intros Hwf Hadv Hix.
  destruct (advance_volume_keeps s s' Hwf Hadv) as (_ & _ & _ & Ht & Hframe).
  destruct (Hframe ix Hix) as [Hv Hd]. auto.
Qed.

(** X7.  A rotation keeps the generation of the current slot congruent to
    the slot: if the generation stored for the next slot is congruent to
    that slot modulo the number of volumes, and its bump does not exceed 32
    bits, then after the rotation [current_gen_ mod volume_count] is
    [current_volume_]. *)
Theorem advance_volume_keeps_ring s s' (gen : Z) :
  wf s ->
  MetaVolume.get_generation (BlockStore.meta_ s) (next_slot s) =
    (AKU_SUCCESS, gen) ->
  0 <= gen ->
  gen + size (BlockStore.volumes_ s) < 2 ^ 32 ->
  gen mod size (BlockStore.volumes_ s) = next_slot s ->
  BlockStore.advance_volume s = Returns s' ->
  BlockStore.current_gen_ s' mod size (BlockStore.volumes_ s') =
    BlockStore.current_volume_ s'.
Proof.
  intros Hwf Hgen Hpos Hfit Hring Hadv.
  pose proof (wf_volumes s Hwf) as Hn.
  destruct (advance_volume_returns s s' Hwf Hadv)
    as (g & nb & Hg & _ &
        [[_ ->] | (_ & m1 & m2 & v & d & _ & _ & _ & _ & ->)]);
    rewrite Hgen in Hg; injection Hg as <-; cbn.
  - exact Hring.
  - unfold size in *. rewrite length_insert.
    rewrite u32_small by (unfold is_u32; lia).
    replace (gen + Z.of_nat (length (BlockStore.volumes_ s)))
      with (gen + 1 * Z.of_nat (length (BlockStore.volumes_ s))) by lia.
    rewrite Z.mod_add by lia. exact Hring.
Qed.

End RotationInvariants.

Section RotationRegistry.

Context {V M : Type} `{!Volume.Ops V} `{!MetaVolume.Ops M}.
Context `{!MetaVolumeLaws M}.

Implicit Types (s : BlockStore.t V M).

(** X6.  After a rotation that returns, with a registry that reads back
    what was written: [current_gen_] is the generation the registry stores
    for the current slot, and the registry records the current slot as
    holding no block. *)
Theorem advance_volume_registry s s' :
  wf s ->
  BlockStore.advance_volume s = Returns s' ->
  MetaVolume.get_generation (BlockStore.meta_ s')
    (BlockStore.current_volume_ s') =
    (AKU_SUCCESS, BlockStore.current_gen_ s') /\
  MetaVolume.get_nblocks (BlockStore.meta_ s')
    (BlockStore.current_volume_ s') = (AKU_SUCCESS, 0).
Proof.
  intros Hwf Hadv.
  destruct (advance_volume_returns s s' Hwf Hadv)
    as (gen & nb & Hg & Hn &
        [[-> ->] | (_ & m1 & m2 & v & d & Hset1 & Hset2 & _ & _ & ->)]);
    cbn.
  - split; assumption.
  - split.
    + apply (generation_after_reset _ _ _ _ _ Hset1 Hset2).
    + apply (get_set_nblocks _ _ _ _ Hset2).
Qed.

End RotationRegistry.

(** ** The write path keeps the store well-formed *)

Section AppendInvariants.

Context {V M : Type} `{!Volume.Ops V} `{!MetaVolume.Ops M}.

Implicit Types (s : BlockStore.t V M) (data : list Byte.byte).

Lemma wf_store_volume s (ix : Z) (v : V) :
  wf s -> wf (BlockStore.store_volume s ix v).
Proof.
  intros [Hn Hd Hc]. split; cbn; unfold size in *;
    rewrite ?length_insert; assumption.
Qed.

Lemma at_in_range {A : Type} (l : list A) (i : Z) :
  0 <= i < size l -> exists x, at_ l i = Returns x.
Proof.
  intros [Hi Hlt].
  destruct (lookup_lt_is_Some_2 l (Z.to_nat i)) as [x Hx].
  { unfold size in Hlt. lia. }
  exists x. apply at_lookup; assumption.
Qed.

(** The outcomes of [append_block] on a well-formed store. *)
Lemma append_block_outcome s data :
  wf s ->
  match BlockStore.append_block s data with
  | Returns (_, s') =>
      wf s' /\ size (BlockStore.volumes_ s') = size (BlockStore.volumes_ s)
  | Panics _ => True
  | Throws | Undefined => False
  end.
Proof.
  intros Hwf. unfold BlockStore.append_block.
  destruct (index_in_range (BlockStore.volumes_ s)
              (BlockStore.current_volume_ s) (wf_current s Hwf))
    as (v & _ & Hiv).
  rewrite Hiv. cbn.
  destruct (Volume.append_block v data) as [[st off] v'].
  pose proof (wf_store_volume s (BlockStore.current_volume_ s) v' Hwf) as Hwf0.
  set (s0 := BlockStore.store_volume s (BlockStore.current_volume_ s) v')
    in *.
  assert (Hsz0 : size (BlockStore.volumes_ s0) = size (BlockStore.volumes_ s)).
  { subst s0. unfold size. cbn. rewrite length_insert. reflexivity. }
  destruct (decide (st = AKU_EOVERFLOW)).
  - destruct (advance_volume_defined s0 Hwf0) as [Hu Ht].
    destruct (BlockStore.advance_volume s0) as [s1 | msg | |] eqn:Hadv;
      cbn; try congruence; [| exact I].
    destruct (advance_volume_keeps s0 s1 Hwf0 Hadv) as (Hwf1 & Hsz1 & _).
    destruct (at_in_range (BlockStore.volumes_ s1)
                (BlockStore.current_volume_ s1) (wf_current s1 Hwf1))
      as [w Hw].
    rewrite Hw. cbn.
    destruct (Volume.append_block w data) as [[st1 off1] w'].
    pose proof (wf_store_volume s1 (BlockStore.current_volume_ s1) w' Hwf1)
      as Hwf2.
    assert (Hsz2 :
      size (BlockStore.volumes_
              (BlockStore.store_volume s1 (BlockStore.current_volume_ s1) w'))
      = size (BlockStore.volumes_ s)).
    { rewrite <- Hsz0, <- Hsz1. unfold size. cbn.
      rewrite length_insert. reflexivity. }
    destruct (decide (st1 <> AKU_SUCCESS)); cbn; split; assumption.
  - cbn. destruct (MetaVolume.set_nblocks _ _ _) as [st2 m'].
    destruct (decide (st2 <> AKU_SUCCESS)); [exact I |].
    unfold BlockStore.bump_dirty. cbn.
    destruct (index_in_range (BlockStore.dirty_ s)
                (BlockStore.current_volume_ s)) as (d & _ & Hid).
    { unfold size. rewrite (wf_dirty s Hwf). apply (wf_current s Hwf). }
    rewrite Hid. cbn. split.
    + destruct Hwf as [Hn Hd Hc]. split; cbn; unfold size in *;
        rewrite ?length_insert; assumption.
    + unfold size. rewrite length_insert. reflexivity.
Qed.

(** X10.  On a well-formed store [append_block] either panics or returns a
    status, an address and a well-formed store with the same number of
    volumes; neither [operator[]] nor [at] is ever out of range. *)
Theorem append_block_safe s data :
  wf s ->
  (exists msg, BlockStore.append_block s data = Panics msg) \/
  (exists status addr s',
     BlockStore.append_block s data = Returns ((status, addr), s') /\
     wf s' /\
     size (BlockStore.volumes_ s') = size (BlockStore.volumes_ s)).
Proof.
  intros Hwf. pose proof (append_block_outcome s data Hwf) as Hout.
  destruct (BlockStore.append_block s data) as [[[st a] s'] | msg | |];
    try contradiction.
  - right. exists st, a, s'. split; [reflexivity | exact Hout].
  - left. exists msg. reflexivity.
Qed.

End AppendInvariants.

(** ** What an append or a flush leaves alone *)

#[global] Instance MemMeta_frame : MetaVolumeFrame MemMeta.t.
Proof.
  split; cbn.
  - intros [sl ft] ix g m' jx.
    unfold MemMeta.set_generation, MemMeta.get_generation. cbn.
    destruct ft; [discriminate |].
    destruct (nth_Z sl ix) as [[g0 n0] |] eqn:Hix; [| discriminate].
    intros [= <-] Hne. cbn. rewrite (nth_Z_insert sl ix jx _ _ Hix).
    destruct (decide (jx = ix)); [congruence | reflexivity].
  - intros [sl ft] ix n m' jx.
    unfold MemMeta.set_nblocks, MemMeta.get_nblocks. cbn.
    destruct ft; [discriminate |].
    destruct (nth_Z sl ix) as [[g0 n0] |] eqn:Hix; [| discriminate].
    intros [= <-] Hne. cbn. rewrite (nth_Z_insert sl ix jx _ _ Hix).
    destruct (decide (jx = ix)); [congruence | reflexivity].
Qed.

#[global] Instance MemVolume_flush_laws : VolumeFlushLaws MemVolume.t.
Proof. split. intros [cap bs fl ft] off. reflexivity. Qed.

Section Extensionality.

Context {V M : Type} `{!Volume.Ops V} `{!MetaVolume.Ops M}.
Variable AKU_BLOCK_SIZE : nat.

Implicit Types (s : BlockStore.t V M) (addr : LogicAddr).

(** [exists] looks at the number of volumes and at the two registry
    fields of the slot of the address, and at nothing else. *)
Lemma exists_ext s s' addr :
  size (BlockStore.volumes_ s') = size (BlockStore.volumes_ s) ->
  MetaVolume.get_generation (BlockStore.meta_ s') (slot_of s addr) =
    MetaVolume.get_generation (BlockStore.meta_ s) (slot_of s addr) ->
  MetaVolume.get_nblocks (BlockStore.meta_ s') (slot_of s addr) =
    MetaVolume.get_nblocks (BlockStore.meta_ s) (slot_of s addr) ->
  BlockStore.exists_ s' addr = BlockStore.exists_ s addr.
Proof.
  unfold slot_of. intros Hsz Hg Hn.
  unfold BlockStore.exists_, BlockStore.mod_size. rewrite Hsz.
  destruct (decide (size (BlockStore.volumes_ s) = 0)); [reflexivity |].
  cbn. rewrite Hg, Hn. reflexivity.
Qed.

(** [read_block] looks in addition at what the volume in the slot
    reads at the offset. *)
Lemma read_block_ext s s' addr :
  size (BlockStore.volumes_ s') = size (BlockStore.volumes_ s) ->
  MetaVolume.get_generation (BlockStore.meta_ s') (slot_of s addr) =
    MetaVolume.get_generation (BlockStore.meta_ s) (slot_of s addr) ->
  MetaVolume.get_nblocks (BlockStore.meta_ s') (slot_of s addr) =
    MetaVolume.get_nblocks (BlockStore.meta_ s) (slot_of s addr) ->
  (fun v => Volume.read_block v (extract_vol addr)) <$>
    (BlockStore.volumes_ s' !! Z.to_nat (slot_of s addr)) =
  (fun v => Volume.read_block v (extract_vol addr)) <$>
    (BlockStore.volumes_ s !! Z.to_nat (slot_of s addr)) ->
  BlockStore.read_block AKU_BLOCK_SIZE s' addr =
  BlockStore.read_block AKU_BLOCK_SIZE s addr.
Proof.
  unfold slot_of. intros Hsz Hg Hn Hv.
  unfold BlockStore.read_block, BlockStore.mod_size. rewrite Hsz.
  destruct (decide (size (BlockStore.volumes_ s) = 0)); [reflexivity |].
  cbn. rewrite Hg, Hn. clear Hg Hn.
  destruct (MetaVolume.get_generation _ _) as [sg g].
  destruct (decide (sg <> AKU_SUCCESS)); [reflexivity |].
  destruct (MetaVolume.get_nblocks _ _) as [sn nb].
  destruct (decide (sn <> AKU_SUCCESS)); [reflexivity |].
  destruct (decide (_ \/ _)); [reflexivity |].
  unfold index. destruct (decide (0 <= _)); [| reflexivity].
  destruct (BlockStore.volumes_ s' !! _) as [v' |],
           (BlockStore.volumes_ s !! _) as [v |];
    cbn in Hv; try discriminate; [| reflexivity].
  injection Hv as Hv. cbn. rewrite Hv. reflexivity.
Qed.

End Extensionality.

Section FlushKeepsReads.

Context {V M : Type} `{!Volume.Ops V} `{!MetaVolume.Ops M}.
Context `{!MetaVolumeLaws M} `{!VolumeFlushLaws V}.
Variable AKU_BLOCK_SIZE : nat.

Implicit Types (s : BlockStore.t V M) (addr : LogicAddr).

(** X12.  A flush changes the answer of no [exists] and of no
    [read_block]: with collaborators whose flush keeps what they hold, the
    flushed store resolves every address as the store before did. *)
Theorem flush_keeps_reads s s' addr :
  length (BlockStore.dirty_ s) = length (BlockStore.volumes_ s) ->
  BlockStore.flush s = Returns s' ->
  BlockStore.exists_ s' addr = BlockStore.exists_ s addr /\
  BlockStore.read_block AKU_BLOCK_SIZE s' addr =
    BlockStore.read_block AKU_BLOCK_SIZE s addr.
Proof.
  intros Hlen Hflush.
  destruct (flush_loop_spec (length (BlockStore.dirty_ s)) 0 s Hlen eq_refl)
    as (s1 & Hrun & Hm & _ & _ & _ & _ & Hlv & _ & Hhigh).
  unfold BlockStore.flush in Hflush. rewrite Hrun in Hflush.
  cbn in Hflush. injection Hflush as <-.
  assert (Hsz : size (BlockStore.volumes_
                        (BlockStore.with_meta s1
                           (MetaVolume.flush (BlockStore.meta_ s1)))) =
                size (BlockStore.volumes_ s)).
  { unfold size. cbn. rewrite Hlv. reflexivity. }
  assert (Hg : forall ix,
    MetaVolume.get_generation
      (BlockStore.meta_ (BlockStore.with_meta s1
                           (MetaVolume.flush (BlockStore.meta_ s1)))) ix =
    MetaVolume.get_generation (BlockStore.meta_ s) ix).
  { intros ix. cbn. rewrite get_generation_flush, Hm. reflexivity. }
  assert (Hn : forall ix,
    MetaVolume.get_nblocks
      (BlockStore.meta_ (BlockStore.with_meta s1
                           (MetaVolume.flush (BlockStore.meta_ s1)))) ix =
    MetaVolume.get_nblocks (BlockStore.meta_ s) ix).
  { intros ix. cbn. rewrite get_nblocks_flush, Hm. reflexivity. }
  split.
  - apply exists_ext; [exact Hsz | apply Hg | apply Hn].
  - apply read_block_ext; [exact Hsz | apply Hg | apply Hn |].
    cbn. set (k := Z.to_nat (slot_of s addr)).
    destruct (BlockStore.volumes_ s !! k) as [v |] eqn:Hv.
    + destruct (lookup_lt_is_Some_2 (BlockStore.dirty_ s) k) as [d Hd].
      { apply lookup_lt_Some in Hv. lia. }
      destruct (Hhigh k d v) as [_ Hx]; [lia | assumption | assumption |].
      rewrite Hx. cbn. f_equal.
      destruct (decide (d <> 0)); [apply read_flush | reflexivity].
    + apply lookup_ge_None in Hv.
      rewrite (proj2 (lookup_ge_None _ _)) by lia. reflexivity.
Qed.

End FlushKeepsReads.

Lemma flush_keeps_reads_witness :
  length (BlockStore.dirty_ store_dirty) =
    length (BlockStore.volumes_ store_dirty) /\
  exists s',
    BlockStore.flush store_dirty = Returns s' /\
    BlockStore.read_block sample_block_size s' (make_logic 3 1) =
      Returns (AKU_SUCCESS, Some (mkBlock block_b (make_logic 3 1))).
Proof.
  split; [reflexivity |].
  destruct (BlockStore.flush store_dirty) as [s' | | |] eqn:Hflush;
    try (vm_compute in Hflush; discriminate).
  exists s'. split; [reflexivity |].
  rewrite (proj2 (flush_keeps_reads sample_block_size store_dirty s'
                    (make_logic 3 1) eq_refl Hflush)).
  vm_compute. reflexivity.
Defined.

(** ** The two ways [append_block] returns *)

Lemma at_returns {A : Type} (v : list A) (i : Z) (x : A) :
  at_ v i = Returns x -> 0 <= i /\ v !! Z.to_nat i = Some x.
Proof.
  unfold at_. destruct (decide (0 <= i)) as [Hi | Hi]; [| discriminate].
  destruct (v !! Z.to_nat i) as [y |] eqn:Hy; [| discriminate].
  intros [= ->]. split; [exact Hi | reflexivity].
Qed.

Section AppendReturns.

Context {V M : Type} `{!Volume.Ops V} `{!MetaVolume.Ops M}.

Implicit Types (s : BlockStore.t V M) (data : list Byte.byte).

(** A call of [append_block] that returns went one of two ways: the first
    attempt did not overflow and the block count was committed, or it
    overflowed, the store rotated and the second attempt decided. *)
Lemma append_block_returns s data (r : aku_Status * LogicAddr) s' :
  BlockStore.append_block s data = Returns (r, s') ->
  exists v v' st offset,
    0 <= BlockStore.current_volume_ s /\
    BlockStore.volumes_ s !! Z.to_nat (BlockStore.current_volume_ s) = Some v /\
    Volume.append_block v data = ((st, offset), v') /\
    ((st <> AKU_EOVERFLOW /\
      exists m' d,
        MetaVolume.set_nblocks (BlockStore.meta_ s)
          (BlockStore.current_volume_ s) (u32 (offset + 1)) =
          (AKU_SUCCESS, m') /\
        BlockStore.dirty_ s !! Z.to_nat (BlockStore.current_volume_ s) =
          Some d /\
        r = (AKU_SUCCESS, make_logic (BlockStore.current_gen_ s) offset) /\
        s' = BlockStore.mk m'
               (<[Z.to_nat (BlockStore.current_volume_ s) := v']>
                  (BlockStore.volumes_ s))
               (<[Z.to_nat (BlockStore.current_volume_ s) := d + 1]>
                  (BlockStore.dirty_ s))
               (BlockStore.current_volume_ s) (BlockStore.current_gen_ s)
               (BlockStore.total_size_ s)) \/
     (st = AKU_EOVERFLOW /\
      exists s1 w w' st1 offset1,
        BlockStore.advance_volume
          (BlockStore.store_volume s (BlockStore.current_volume_ s) v') =
          Returns s1 /\
        0 <= BlockStore.current_volume_ s1 /\
        BlockStore.volumes_ s1 !! Z.to_nat (BlockStore.current_volume_ s1) =
          Some w /\
        Volume.append_block w data = ((st1, offset1), w') /\
        r = (st1,
             if decide (st1 <> AKU_SUCCESS) then 0
             else make_logic (BlockStore.current_gen_ s1) offset1) /\
        s' = BlockStore.store_volume s1 (BlockStore.current_volume_ s1) w')).
Proof.
  unfold BlockStore.append_block.
  destruct (index (BlockStore.volumes_ s) (BlockStore.current_volume_ s))
    as [v | | |] eqn:Hv; try (cbn; discriminate).
  apply index_returns in Hv as [Hcv Hv]. cbn.
  destruct (Volume.append_block v data) as [[st offset] v'] eqn:Happ.
  destruct (decide (st = AKU_EOVERFLOW)) as [-> | Hst].
  - destruct (BlockStore.advance_volume _) as [s1 | | |] eqn:Hadv;
      try (cbn; discriminate).
    cbn.
    destruct (at_ (BlockStore.volumes_ s1) (BlockStore.current_volume_ s1))
      as [w | | |] eqn:Hw; try (cbn; discriminate).
    apply at_returns in Hw as [Hcv1 Hw]. cbn.
    destruct (Volume.append_block w data) as [[st1 offset1] w'] eqn:Happ1.
    intros Hret. exists v, v', AKU_EOVERFLOW, offset.
    split; [exact Hcv |]. split; [exact Hv |]. split; [exact Happ |].
    right. split; [reflexivity |].
    exists s1, w, w', st1, offset1.
    split; [exact Hadv |]. split; [exact Hcv1 |]. split; [exact Hw |].
    split; [exact Happ1 |].
    destruct (decide (st1 <> AKU_SUCCESS)); injection Hret as <- <-;
      split; reflexivity.
  - cbn. destruct (MetaVolume.set_nblocks _ _ _) as [st2 m'] eqn:Hset.
    destruct (decide (st2 <> AKU_SUCCESS)) as [| Hst2]; [discriminate |].
    apply dec_stable in Hst2. subst st2.
    unfold BlockStore.bump_dirty. cbn.
    destruct (index (BlockStore.dirty_ s) (BlockStore.current_volume_ s))
      as [d | | |] eqn:Hd; try (cbn; discriminate).
    apply index_returns in Hd as [_ Hd]. cbn.
    intros Hret. injection Hret as <- <-.
    exists v, v', st, offset.
    split; [exact Hcv |]. split; [exact Hv |]. split; [exact Happ |].
    left. split; [exact Hst |]. exists m', d.
    split; [exact Hset |]. split; [exact Hd |]. split; reflexivity.
Qed.

(** X9.  [append_block] returns a failure status only when the first
    attempt overflowed, and then with address 0; a failure of the first
    attempt other than an overflow is never returned. *)
Theorem append_block_failure s data (status : aku_Status) (addr : LogicAddr)
        s' :
  BlockStore.append_block s data = Returns ((status, addr), s') ->
  status <> AKU_SUCCESS ->
  addr = 0 /\
  exists v offset v',
    BlockStore.volumes_ s !! Z.to_nat (BlockStore.current_volume_ s) = Some v /\
    Volume.append_block v data = ((AKU_EOVERFLOW, offset), v').
Proof.
  intros Hret Hfail.
  destruct (append_block_returns s data _ s' Hret)
    as (v & v' & st & offset & _ & Hv & Happ &
        [(_ & m' & d & _ & _ & Hr & _) |
         (-> & s1 & w & w' & st1 & offset1 & _ & _ & _ & _ & Hr & _)]).
  - injection Hr as -> _. contradiction.
  - injection Hr as Hst Haddr. subst st1.
    destruct (decide (status <> AKU_SUCCESS)); [| contradiction].
    split; [exact Haddr |]. exists v, offset, v'. split; assumption.
Qed.

End AppendReturns.

Section AppendFrame.

Context {V M : Type} `{!Volume.Ops V} `{!MetaVolume.Ops M}.
Context `{!MetaVolumeLaws M} `{!MetaVolumeFrame M}.
Variable AKU_BLOCK_SIZE : nat.

Implicit Types (s : BlockStore.t V M) (data : list Byte.byte)
         (addr : LogicAddr).

(** A rotation changes the registry in the slot it moves to only. *)
Lemma advance_volume_registry_frame s s' (jx : Z) :
  wf s ->
  BlockStore.advance_volume s = Returns s' ->
  jx <> next_slot s ->
  MetaVolume.get_generation (BlockStore.meta_ s') jx =
    MetaVolume.get_generation (BlockStore.meta_ s) jx /\
  MetaVolume.get_nblocks (BlockStore.meta_ s') jx =
    MetaVolume.get_nblocks (BlockStore.meta_ s) jx.
Proof.
  intros Hwf Hadv Hjx.
  destruct (advance_volume_returns s s' Hwf Hadv)
    as (gen & nb & _ & _ &
        [[_ ->] | (_ & m1 & m2 & v & d & Hset1 & Hset2 & _ & _ & ->)]);
    cbn.
  - split; reflexivity.
  - split.
    + rewrite (get_generation_set_nblocks _ _ _ _ jx Hset2).
      apply (get_generation_set_generation_ne _ _ _ _ jx Hset1). congruence.
    + rewrite (get_nblocks_set_nblocks_ne _ _ _ _ jx Hset2) by congruence.
      apply (get_nblocks_set_generation _ _ _ _ jx Hset1).
Qed.

(** X11.  An append that returns changes nothing for the addresses of the
    other slots: an address whose slot is neither the current slot nor the
    next one is resolved by [exists] and by [read_block] after the append
    exactly as before. *)
Theorem append_block_frame s data (r : aku_Status * LogicAddr) s' addr :
  wf s ->
  BlockStore.append_block s data = Returns (r, s') ->
  slot_of s addr <> BlockStore.current_volume_ s ->
  slot_of s addr <> next_slot s ->
  BlockStore.exists_ s' addr = BlockStore.exists_ s addr /\
  BlockStore.read_block AKU_BLOCK_SIZE s' addr =
    BlockStore.read_block AKU_BLOCK_SIZE s addr.
Proof.
  intros Hwf Hret Hcur Hnext.
  pose proof (wf_volumes s Hwf) as Hn.
  assert (Hslot : 0 <= slot_of s addr).
  { unfold slot_of. apply Z.mod_pos_bound. lia. }
  assert (Hall :
    size (BlockStore.volumes_ s') = size (BlockStore.volumes_ s) /\
    MetaVolume.get_generation (BlockStore.meta_ s') (slot_of s addr) =
      MetaVolume.get_generation (BlockStore.meta_ s) (slot_of s addr) /\
    MetaVolume.get_nblocks (BlockStore.meta_ s') (slot_of s addr) =
      MetaVolume.get_nblocks (BlockStore.meta_ s) (slot_of s addr) /\
    BlockStore.volumes_ s' !! Z.to_nat (slot_of s addr) =
      BlockStore.volumes_ s !! Z.to_nat (slot_of s addr)).
  { destruct (append_block_returns s data r s' Hret)
      as (v & v' & st & offset & Hcv & Hv & Happ &
          [(_ & m' & d & Hset & _ & _ & ->) |
           (-> & s1 & w & w' & st1 & offset1 & Hadv & Hcv1 & _ & _ & _ & ->)]).
    - cbn. unfold size. rewrite length_insert.
      split; [reflexivity |]. split.
      + apply (get_generation_set_nblocks _ _ _ _ _ Hset).
      + split.
        * apply (get_nblocks_set_nblocks_ne _ _ _ _ _ Hset). congruence.
        * apply list_lookup_insert_ne. lia.
    - set (s0 := BlockStore.store_volume s (BlockStore.current_volume_ s) v')
        in *.
      pose proof (wf_store_volume s (BlockStore.current_volume_ s) v' Hwf)
        as Hwf0. fold s0 in Hwf0.
      assert (Hnext0 : next_slot s0 = next_slot s).
      { unfold next_slot, size. subst s0. cbn. rewrite length_insert.
        reflexivity. }
      destruct (advance_volume_keeps s0 s1 Hwf0 Hadv)
        as (_ & Hsz1 & Hcur1 & _ & Hframe).
      destruct (advance_volume_registry_frame s0 s1 (slot_of s addr) Hwf0 Hadv)
        as [Hg1 Hn1]; [congruence |].
      destruct (Hframe (Z.to_nat (slot_of s addr))) as [Hv1 _].
      { rewrite Hnext0. pose proof (Z.mod_pos_bound
          (BlockStore.current_volume_ s + 1) (size (BlockStore.volumes_ s))).
        unfold next_slot in *. lia. }
      cbn. unfold size in *. rewrite length_insert, Hsz1.
      split; [subst s0; cbn; rewrite length_insert; reflexivity |].
      split; [exact Hg1 |]. split; [exact Hn1 |].
      rewrite list_lookup_insert_ne.
      + rewrite Hv1. subst s0. cbn. apply list_lookup_insert_ne. lia.
      + rewrite Hcur1, Hnext0. pose proof (Z.mod_pos_bound
          (BlockStore.current_volume_ s + 1)
          (Z.of_nat (length (BlockStore.volumes_ s)))).
        unfold next_slot, size in *. lia. }
  destruct Hall as (Hsz & Hg & Hnb & Hv).
  split.
  - apply exists_ext; assumption.
  - apply read_block_ext; try assumption. rewrite Hv. reflexivity.
Qed.

End AppendFrame.

(** ** Opening a store *)

Section Opening.

Context {V M : Type} `{!Volume.Ops V} `{!MetaVolume.Ops M}.
Variable meta_open_existing : string -> outcome M.
Variable volume_open_existing : string -> Z -> outcome V.

Local Abbreviation open_volumes :=
  (BlockStore.open_volumes volume_open_existing).

(** The first loop when it returns: one volume per path, each opened with
    the block count the registry holds for its slot, and one zero dirty
    counter per path. *)
Lemma open_volumes_returns (meta : M) (volpaths : list string) :
  forall (ix : Z) (volumes : list V) (dirty : list Z) volumes' dirty',
    0 <= ix -> ix + size volpaths < 2 ^ 32 ->
    open_volumes meta ix volpaths volumes dirty = Returns (volumes', dirty') ->
    exists opened,
      volumes' = volumes ++ opened /\
      dirty' = dirty ++ replicate (length volpaths) 0 /\
      length opened = length volpaths /\
      forall (k : nat) volpath,
        volpaths !! k = Some volpath ->
        exists nblocks v,
          MetaVolume.get_nblocks meta (ix + Z.of_nat k) =
            (AKU_SUCCESS, nblocks) /\
          volume_open_existing volpath nblocks = Returns v /\
          opened !! k = Some v.
Proof.
  induction volpaths as [| volpath volpaths IH];
    intros ix volumes dirty volumes' dirty' Hix Hfit.
  - cbn. intros [= <- <-]. exists []. rewrite !app_nil_r.
    repeat split; try reflexivity. intros k p Hk. discriminate.
  - unfold size in Hfit. cbn [length] in Hfit. cbn [BlockStore.open_volumes].
    destruct (MetaVolume.get_nblocks meta ix) as [st nb] eqn:Hnb.
    destruct (decide (st <> AKU_SUCCESS)) as [| Hst]; [discriminate |].
    apply dec_stable in Hst. subst st.
    destruct (volume_open_existing volpath nb) as [v | | |] eqn:Hopen;
      try (cbn; discriminate).
    cbn. rewrite (u32_small (ix + 1)) by (unfold is_u32; lia).
    intros Hrun.
    destruct (IH (ix + 1) _ _ _ _ ltac:(lia) ltac:(unfold size; lia) Hrun)
      as (opened & -> & -> & Hlen & Hall).
    exists (v :: opened). rewrite <- !app_assoc. cbn.
    repeat split; try reflexivity; [lia |].
    intros [| k] p Hk; cbn in Hk.
    + injection Hk as <-. exists nb, v.
      rewrite Z.add_0_r. repeat split; assumption.
    + destruct (Hall k p Hk) as (nb' & v' & Hnb' & Hopen' & Hv').
      exists nb', v'. replace (ix + Z.of_nat (S k)) with (ix + 1 + Z.of_nat k)
        by lia.
      repeat split; assumption.
Qed.

(** The first loop panics at the first slot whose block count cannot be
    read. *)
Lemma open_volumes_panics (meta : M) (volpaths : list string) :
  forall (ix : Z) (volumes : list V) (dirty : list Z) (k : nat),
    0 <= ix -> ix + size volpaths < 2 ^ 32 ->
    (k < length volpaths)%nat ->
    fst (MetaVolume.get_nblocks meta (ix + Z.of_nat k)) <> AKU_SUCCESS ->
    (forall (j : nat) volpath,
       (j < k)%nat -> volpaths !! j = Some volpath ->
       exists nblocks v,
         MetaVolume.get_nblocks meta (ix + Z.of_nat j) =
           (AKU_SUCCESS, nblocks) /\
         volume_open_existing volpath nblocks = Returns v) ->
    open_volumes meta ix volpaths volumes dirty =
      Panics "Can't open blockstore".
Proof.
  induction volpaths as [| volpath volpaths IH];
    intros ix volumes dirty k Hix Hfit Hk Hfail Hbefore.
  - cbn in Hk. lia.
  - unfold size in Hfit. cbn [length] in Hfit, Hk.
    cbn [BlockStore.open_volumes].
    destruct k as [| k].
    + rewrite Z.add_0_r in Hfail.
      destruct (MetaVolume.get_nblocks meta ix) as [st nb]. cbn in Hfail.
      destruct (decide (st <> AKU_SUCCESS)); [reflexivity | contradiction].
    + destruct (Hbefore 0%nat volpath) as (nb & v & Hnb & Hopen);
        [lia | reflexivity |].
      rewrite Z.add_0_r in Hnb. rewrite Hnb.
      destruct (decide (AKU_SUCCESS <> AKU_SUCCESS)); [congruence |].
      rewrite Hopen. cbn.
      rewrite (u32_small (ix + 1)) by (unfold is_u32; lia).
      apply (IH (ix + 1) _ _ k); [lia | unfold size; lia | lia | |].
      * replace (ix + 1 + Z.of_nat k) with (ix + Z.of_nat (S k)) by lia.
        exact Hfail.
      * intros j p Hj Hp.
        destruct (Hbefore (S j) p) as (nb' & v' & Hnb' & Hopen');
          [lia | exact Hp |].
        exists nb', v'.
        replace (ix + 1 + Z.of_nat j) with (ix + Z.of_nat (S j)) by lia.
        split; assumption.
Qed.

(** The third loop stops at the first volume with free space. *)
Lemma find_current_first_free (meta : M) (rest : list V) :
  forall (i cv gen cv' gen' : Z) (k : nat) (v : V) (g nblocks : Z),
    BlockStore.find_current meta i rest cv gen = Returns (cv', gen') ->
    rest !! k = Some v ->
    MetaVolume.get_generation meta (i + Z.of_nat k) = (AKU_SUCCESS, g) ->
    MetaVolume.get_nblocks meta (i + Z.of_nat k) = (AKU_SUCCESS, nblocks) ->
    nblocks < Volume.get_size v ->
    (forall (j : nat) vj nj,
       (j < k)%nat -> rest !! j = Some vj ->
       MetaVolume.get_nblocks meta (i + Z.of_nat j) = (AKU_SUCCESS, nj) ->
       Volume.get_size vj <= nj) ->
    cv' = u32 (i + Z.of_nat k) /\ gen' = g.
Proof.
  induction rest as [| vol rest IH];
    intros i cv gen cv' gen' k v g nblocks Hrun Hk Hg Hn Hfree Hfull.
  - discriminate.
  - cbn [BlockStore.find_current] in Hrun. destruct k as [| k].
    + cbn in Hk. injection Hk as ->. rewrite Z.add_0_r in Hg, Hn.
      rewrite Hg in Hrun.
      destruct (decide (AKU_SUCCESS = AKU_SUCCESS)); [| congruence].
      rewrite Hn in Hrun.
      destruct (decide (AKU_SUCCESS <> AKU_SUCCESS)); [congruence |].
      destruct (decide (nblocks < Volume.get_size v)); [| contradiction].
      injection Hrun as <- <-. rewrite Z.add_0_r. split; reflexivity.
    + destruct (MetaVolume.get_generation meta i) as [sg g0].
      destruct (decide (sg = AKU_SUCCESS)) as [-> | Hsg].
      * destruct (MetaVolume.get_nblocks meta i) as [sn n0] eqn:Hn0.
        destruct (decide (sn <> AKU_SUCCESS)) as [| Hsn]; [discriminate |].
        apply dec_stable in Hsn. subst sn.
        destruct (decide (n0 < Volume.get_size vol)) as [Hlt | _].
        { pose proof (Hfull 0%nat vol n0 ltac:(lia) eq_refl) as Hle.
          rewrite Z.add_0_r in Hle. specialize (Hle Hn0). lia. }
        replace (i + Z.of_nat (S k)) with (i + 1 + Z.of_nat k) in * by lia.
        apply (IH (i + 1) cv gen cv' gen' k v g nblocks); try assumption.
        intros j vj nj Hj Hvj Hnj.
        apply (Hfull (S j) vj nj); [lia | exact Hvj |].
        replace (i + Z.of_nat (S j)) with (i + 1 + Z.of_nat j) by lia.
        exact Hnj.
      * destruct (decide (sg <> AKU_SUCCESS)); [discriminate | contradiction].
Qed.

(** The third loop assigns nothing when no volume has free space. *)
Lemma find_current_packed (meta : M) (rest : list V) :
  forall (i cv gen cv' gen' : Z),
    BlockStore.find_current meta i rest cv gen = Returns (cv', gen') ->
    (forall (j : nat) vj nj,
       rest !! j = Some vj ->
       MetaVolume.get_nblocks meta (i + Z.of_nat j) = (AKU_SUCCESS, nj) ->
       Volume.get_size vj <= nj) ->
    cv' = cv /\ gen' = gen.
Proof.
  induction rest as [| vol rest IH]; intros i cv gen cv' gen' Hrun Hfull.
  - injection Hrun as <- <-. split; reflexivity.
  - cbn [BlockStore.find_current] in Hrun.
    destruct (MetaVolume.get_generation meta i) as [sg g0].
    destruct (decide (sg = AKU_SUCCESS)) as [-> | Hsg].
    + destruct (MetaVolume.get_nblocks meta i) as [sn n0] eqn:Hn0.
      destruct (decide (sn <> AKU_SUCCESS)) as [| Hsn]; [discriminate |].
      apply dec_stable in Hsn. subst sn.
      destruct (decide (n0 < Volume.get_size vol)) as [Hlt | _].
      { pose proof (Hfull 0%nat vol n0 eq_refl) as Hle.
        rewrite Z.add_0_r in Hle. specialize (Hle Hn0). lia. }
      apply (IH (i + 1) cv gen cv' gen' Hrun).
      intros j vj nj Hvj Hnj. apply (Hfull (S j) vj nj); [exact Hvj |].
      replace (i + Z.of_nat (S j)) with (i + 1 + Z.of_nat j) by lia.
      exact Hnj.
    + destruct (decide (sg <> AKU_SUCCESS)); [discriminate | contradiction].
Qed.

(** The accumulation of [total_size_] does not wrap for fewer than
    [2^32] volumes of 32-bit sizes. *)
Lemma fold_sizes_exact (volumes : list V) :
  forall total : Z,
    0 <= total ->
    total + size volumes * 2 ^ 32 <= 2 ^ 64 ->
    Forall (fun vol => is_u32 (Volume.get_size vol)) volumes ->
    fold_left (fun total vol => u64 (total + Volume.get_size vol))
              volumes total =
    total + foldr Z.add 0 (Volume.get_size <$> volumes).
Proof.
  induction volumes as [| vol volumes IH]; intros total Hpos Hfit Hall.
  - cbn. lia.
  - apply Forall_cons_1 in Hall as [[Hv0 Hv1] Hall].
    unfold size in Hfit. cbn [length] in Hfit.
    rewrite Nat2Z.inj_succ in Hfit.
    pose proof (Nat2Z.is_nonneg (length volumes)) as Hlen.
    change (2 ^ 32) with 4294967296 in *.
    change (2 ^ 64) with 18446744073709551616 in *.
    cbn [fold_left]. rewrite fmap_cons. cbn [foldr].
    rewrite u64_small
      by (unfold is_u64; change (2 ^ 64) with 18446744073709551616; lia).
    rewrite IH; [lia | lia | unfold size; lia | exact Hall].
Qed.

(** A call of [open] that returns. *)
Lemma open_returns (metapath : string) (volpaths : list string) (cv0 gen0 : Z)
      (s : BlockStore.t V M) :
  size volpaths < 2 ^ 32 ->
  BlockStore.open meta_open_existing volume_open_existing metapath volpaths
                  cv0 gen0 = Returns s ->
  exists meta volumes cv gen,
    meta_open_existing metapath = Returns meta /\
    length volumes = length volpaths /\
    (forall (k : nat) volpath,
       volpaths !! k = Some volpath ->
       exists nblocks v,
         MetaVolume.get_nblocks meta (Z.of_nat k) = (AKU_SUCCESS, nblocks) /\
         volume_open_existing volpath nblocks = Returns v /\
         volumes !! k = Some v) /\
    BlockStore.find_current meta 0 volumes cv0 gen0 = Returns (cv, gen) /\
    s = BlockStore.mk meta volumes (replicate (length volpaths) 0) cv gen
                      (BlockStore.sum_sizes volumes).
Proof.
  intros Hfit. unfold BlockStore.open, BlockStore.ctor.
  destruct (meta_open_existing metapath) as [meta | | |];
    try (cbn; discriminate).
  cbn.
  destruct (open_volumes meta 0 volpaths [] []) as [[volumes dirty] | | |]
    eqn:Hopen; try (cbn; discriminate).
  cbn.
  destruct (BlockStore.find_current meta 0 volumes cv0 gen0)
    as [[cv gen] | | |] eqn:Hfind; try (cbn; discriminate).
  cbn. intros [= <-].
  destruct (open_volumes_returns meta volpaths 0 [] [] volumes dirty
              ltac:(lia) ltac:(lia) Hopen)
    as (opened & -> & -> & Hlen & Hall).
  exists meta, opened, cv, gen. cbn.
  repeat split; try assumption; reflexivity.
Qed.

(** X13.  When [open] returns a store for fewer than [2^32] paths, the
    store holds the registry that was opened, one volume per path in the
    order of the paths, each opened with the block count the registry
    records for its slot, and one dirty counter per volume, all zero. *)
Theorem open_structure (metapath : string) (volpaths : list string)
        (cv0 gen0 : Z) (s : BlockStore.t V M) :
  size volpaths < 2 ^ 32 ->
  BlockStore.open meta_open_existing volume_open_existing metapath volpaths
                  cv0 gen0 = Returns s ->
  meta_open_existing metapath = Returns (BlockStore.meta_ s) /\
  length (BlockStore.volumes_ s) = length volpaths /\
  BlockStore.dirty_ s = replicate (length volpaths) 0 /\
  forall (k : nat) volpath,
    volpaths !! k = Some volpath ->
    exists nblocks v,
      MetaVolume.get_nblocks (BlockStore.meta_ s) (Z.of_nat k) =
        (AKU_SUCCESS, nblocks) /\
      volume_open_existing volpath nblocks = Returns v /\
      BlockStore.volumes_ s !! k = Some v.
Proof.
  intros Hfit Hopen.
  destruct (open_returns metapath volpaths cv0 gen0 s Hfit Hopen)
    as (meta & volumes & cv & gen & Hmeta & Hlen & Hall & _ & ->).
  cbn. repeat split; assumption || reflexivity.
Qed.

(** X14.  When [open] returns, the current volume is the first one with
    free space: if slot [k] is the first whose volume is larger than its
    recorded block count, then [current_volume_] is [k], [current_gen_] is
    the generation recorded for slot [k], whatever the two members held
    before, and the store is well-formed. *)
Theorem open_current (metapath : string) (volpaths : list string)
        (cv0 gen0 : Z) (s : BlockStore.t V M) (k : nat) (v : V)
        (g nblocks : Z) :
  size volpaths < 2 ^ 32 ->
  BlockStore.open meta_open_existing volume_open_existing metapath volpaths
                  cv0 gen0 = Returns s ->
  BlockStore.volumes_ s !! k = Some v ->
  MetaVolume.get_generation (BlockStore.meta_ s) (Z.of_nat k) =
    (AKU_SUCCESS, g) ->
  MetaVolume.get_nblocks (BlockStore.meta_ s) (Z.of_nat k) =
    (AKU_SUCCESS, nblocks) ->
  nblocks < Volume.get_size v ->
  (forall (j : nat) vj nj,
     (j < k)%nat -> BlockStore.volumes_ s !! j = Some vj ->
     MetaVolume.get_nblocks (BlockStore.meta_ s) (Z.of_nat j) =
       (AKU_SUCCESS, nj) ->
     Volume.get_size vj <= nj) ->
  BlockStore.current_volume_ s = Z.of_nat k /\
  BlockStore.current_gen_ s = g /\
  wf s.
Proof.
  intros Hfit Hopen Hk Hg Hn Hfree Hfull.
  destruct (open_returns metapath volpaths cv0 gen0 s Hfit Hopen)
    as (meta & volumes & cv & gen & _ & Hlen & _ & Hfind & ->).
  cbn in *.
  destruct (find_current_first_free meta volumes 0 cv0 gen0 cv gen k v g
              nblocks Hfind Hk Hg Hn Hfree Hfull) as [-> ->].
  apply lookup_lt_Some in Hk. unfold size in Hfit.
  rewrite Z.add_0_l, u32_small by (unfold is_u32; lia).
  split; [reflexivity |]. split; [reflexivity |].
  split; cbn; unfold size; rewrite ?length_replicate; lia.
Qed.

(** X15.  [open] panics with "Can't open blockstore" when the registry
    cannot report the block count of the slot of one of the paths, the
    volumes of the paths before it having been opened. *)
Theorem open_panics (metapath : string) (volpaths : list string)
        (cv0 gen0 : Z) (meta : M) (k : nat) :
  size volpaths < 2 ^ 32 ->
  meta_open_existing metapath = Returns meta ->
  (k < length volpaths)%nat ->
  fst (MetaVolume.get_nblocks meta (Z.of_nat k)) <> AKU_SUCCESS ->
  (forall (j : nat) volpath,
     (j < k)%nat -> volpaths !! j = Some volpath ->
     exists nblocks v,
       MetaVolume.get_nblocks meta (Z.of_nat j) = (AKU_SUCCESS, nblocks) /\
       volume_open_existing volpath nblocks = Returns v) ->
  BlockStore.open meta_open_existing volume_open_existing metapath volpaths
                  cv0 gen0 = Panics "Can't open blockstore".
Proof.
  intros Hfit Hmeta Hk Hfail Hbefore.
  unfold BlockStore.open, BlockStore.ctor. rewrite Hmeta. cbn.
  rewrite (open_volumes_panics meta volpaths 0 [] [] k);
    try assumption; try lia; reflexivity.
Qed.

(** X16.  When every volume is as full as its recorded block count says,
    [open] returns without ever assigning [current_volume_] and
    [current_gen_]: they keep the indeterminate values they had. *)
Theorem open_packed (metapath : string) (volpaths : list string)
        (cv0 gen0 : Z) (s : BlockStore.t V M) :
  size volpaths < 2 ^ 32 ->
  BlockStore.open meta_open_existing volume_open_existing metapath volpaths
                  cv0 gen0 = Returns s ->
  (forall (j : nat) vj nj,
     BlockStore.volumes_ s !! j = Some vj ->
     MetaVolume.get_nblocks (BlockStore.meta_ s) (Z.of_nat j) =
       (AKU_SUCCESS, nj) ->
     Volume.get_size vj <= nj) ->
  BlockStore.current_volume_ s = cv0 /\
  BlockStore.current_gen_ s = gen0.
Proof.
  intros Hfit Hopen Hfull.
  destruct (open_returns metapath volpaths cv0 gen0 s Hfit Hopen)
    as (meta & volumes & cv & gen & _ & _ & _ & Hfind & ->).
  cbn in *.
  apply (find_current_packed meta volumes 0 cv0 gen0 cv gen Hfind Hfull).
Qed.

(** X17.  When [open] returns a store for fewer than [2^32] paths whose
    volumes have 32-bit sizes, [total_size_] is the sum of the sizes of
    the volumes: the 64-bit accumulation does not wrap. *)
Theorem open_total_size (metapath : string) (volpaths : list string)
        (cv0 gen0 : Z) (s : BlockStore.t V M) :
  size volpaths < 2 ^ 32 ->
  BlockStore.open meta_open_existing volume_open_existing metapath volpaths
                  cv0 gen0 = Returns s ->
  Forall (fun vol => is_u32 (Volume.get_size vol)) (BlockStore.volumes_ s) ->
  BlockStore.total_size_ s =
    foldr Z.add 0 (Volume.get_size <$> BlockStore.volumes_ s).
Proof.
  intros Hfit Hopen Hall.
  destruct (open_returns metapath volpaths cv0 gen0 s Hfit Hopen)
    as (meta & volumes & cv & gen & _ & Hlen & _ & _ & ->).
  cbn in *. unfold BlockStore.sum_sizes.
  rewrite fold_sizes_exact; [lia | lia | | exact Hall].
  unfold size in *. rewrite Hlen.
  change (2 ^ 32) with 4294967296 in *.
  change (2 ^ 64) with 18446744073709551616. lia.
Qed.

End Opening.

(** ** The further properties on the sample stores *)

Lemma store_fresh_wf : wf store_fresh.
Proof. sample_wf. Qed.

Lemma store_dirty_wf : wf store_dirty.
Proof. sample_wf. Qed.

Lemma advance_volume_safe_witness :
  wf store_full_ring /\
  ((exists msg, BlockStore.advance_volume store_full_ring = Panics msg) \/
   (exists s',
      BlockStore.advance_volume store_full_ring = Returns s' /\
      wf s' /\
      size (BlockStore.volumes_ s') = size (BlockStore.volumes_ store_full_ring)
      /\ BlockStore.current_volume_ s' = next_slot store_full_ring)).
Proof.
  split; [exact store_full_ring_wf |].
  exact (advance_volume_safe store_full_ring store_full_ring_wf).
Defined.

Lemma advance_volume_frame_witness :
  wf store_full_ring /\
  BlockStore.advance_volume store_full_ring = Returns store_after_wrap /\
  BlockStore.volumes_ store_after_wrap !! 1%nat =
    BlockStore.volumes_ store_full_ring !! 1%nat /\
  BlockStore.dirty_ store_after_wrap !! 1%nat =
    BlockStore.dirty_ store_full_ring !! 1%nat /\
  BlockStore.total_size_ store_after_wrap =
    BlockStore.total_size_ store_full_ring.
Proof.
  assert (Hadv : BlockStore.advance_volume store_full_ring =
                 Returns store_after_wrap) by (vm_compute; reflexivity).
  split; [exact store_full_ring_wf |]. split; [exact Hadv |].
  apply (advance_volume_frame store_full_ring store_after_wrap 1
           store_full_ring_wf Hadv).
  vm_compute. discriminate.
Defined.

Lemma advance_volume_registry_witness :
  wf store_full_ring /\
  BlockStore.advance_volume store_full_ring = Returns store_after_wrap /\
  MetaVolume.get_generation (BlockStore.meta_ store_after_wrap)
    (BlockStore.current_volume_ store_after_wrap) =
    (AKU_SUCCESS, BlockStore.current_gen_ store_after_wrap) /\
  MetaVolume.get_nblocks (BlockStore.meta_ store_after_wrap)
    (BlockStore.current_volume_ store_after_wrap) = (AKU_SUCCESS, 0).
Proof.
  assert (Hadv : BlockStore.advance_volume store_full_ring =
                 Returns store_after_wrap) by (vm_compute; reflexivity).
  split; [exact store_full_ring_wf |]. split; [exact Hadv |].
  exact (advance_volume_registry store_full_ring store_after_wrap
           store_full_ring_wf Hadv).
Defined.

Lemma advance_volume_keeps_ring_witness :
  wf store_full_ring /\
  BlockStore.advance_volume store_full_ring = Returns store_after_wrap /\
  BlockStore.current_gen_ store_after_wrap mod
    size (BlockStore.volumes_ store_after_wrap) =
    BlockStore.current_volume_ store_after_wrap.
Proof.
  assert (Hadv : BlockStore.advance_volume store_full_ring =
                 Returns store_after_wrap) by (vm_compute; reflexivity).
  split; [exact store_full_ring_wf |]. split; [exact Hadv |].
  apply (advance_volume_keeps_ring store_full_ring store_after_wrap 0
           store_full_ring_wf).
  - vm_compute. reflexivity.
  - lia.
  - vm_compute. reflexivity.
  - vm_compute. reflexivity.
  - exact Hadv.
Defined.

Lemma append_read_first_attempt_witness :
  wf store_fresh /\
  exists s',
    BlockStore.append_block store_fresh block_a =
      Returns ((AKU_SUCCESS, make_logic 0 0), s') /\
    BlockStore.read_block sample_block_size s' (make_logic 0 0) =
      Returns (AKU_SUCCESS, Some (mkBlock block_a (make_logic 0 0))).
Proof.
  split; [exact store_fresh_wf |].
  apply (append_read_first_attempt sample_block_size store_fresh block_a
           (volume_of 1 []) (volume_of 1 [block_a]) 0
           (meta_of [(0, 1); (1, 0)]) store_fresh_wf).
  - unfold is_u32. cbn. lia.
  - vm_compute. reflexivity.
  - vm_compute. reflexivity.
  - reflexivity.
  - vm_compute. reflexivity.
  - vm_compute. reflexivity.
  - lia.
  - vm_compute. reflexivity.
Defined.

Lemma append_block_failure_witness :
  exists s',
    BlockStore.append_block store_stuck block_a =
      Returns ((AKU_EOVERFLOW, 0), s') /\
    0 = 0 /\
    exists v offset v',
      BlockStore.volumes_ store_stuck
        !! Z.to_nat (BlockStore.current_volume_ store_stuck) = Some v /\
      Volume.append_block v block_a = ((AKU_EOVERFLOW, offset), v').
Proof.
  eexists. split; [vm_compute; reflexivity |].
  eapply (append_block_failure store_stuck block_a AKU_EOVERFLOW 0).
  - vm_compute. reflexivity.
  - discriminate.
Defined.

Lemma append_block_safe_witness :
  wf store_stuck /\
  ((exists msg, BlockStore.append_block store_stuck block_a = Panics msg) \/
   (exists status addr s',
      BlockStore.append_block store_stuck block_a =
        Returns ((status, addr), s') /\
      wf s' /\
      size (BlockStore.volumes_ s') = size (BlockStore.volumes_ store_stuck))).
Proof.
  assert (Hwf : wf store_stuck) by sample_wf.
  split; [exact Hwf |].
  exact (append_block_safe store_stuck block_a Hwf).
Defined.

Lemma append_block_frame_witness :
  wf store_dirty /\
  exists r s',
    BlockStore.append_block store_dirty block_a = Returns (r, s') /\
    BlockStore.exists_ s' (make_logic 1 0) =
      BlockStore.exists_ store_dirty (make_logic 1 0) /\
    BlockStore.read_block sample_block_size s' (make_logic 1 0) =
      BlockStore.read_block sample_block_size store_dirty (make_logic 1 0).
Proof.
  split; [exact store_dirty_wf |].
  eexists. eexists. split; [vm_compute; reflexivity |].
  eapply (append_block_frame sample_block_size store_dirty block_a _ _
            (make_logic 1 0) store_dirty_wf).
  - vm_compute. reflexivity.
  - vm_compute. discriminate.
  - vm_compute. discriminate.
Defined.

Lemma open_structure_witness :
  size three_paths < 2 ^ 32 /\
  BlockStore.open sample_meta_open sample_volume_open "meta" three_paths
                  77 88 = Returns store_opened /\
  length (BlockStore.volumes_ store_opened) = length three_paths /\
  BlockStore.dirty_ store_opened = replicate (length three_paths) 0.
Proof.
  assert (Hfit : size three_paths < 2 ^ 32) by (vm_compute; reflexivity).
  assert (Hopen : BlockStore.open sample_meta_open sample_volume_open "meta"
                    three_paths 77 88 = Returns store_opened)
    by (vm_compute; reflexivity).
  split; [exact Hfit |]. split; [exact Hopen |].
  destruct (open_structure sample_meta_open sample_volume_open "meta"
              three_paths 77 88 store_opened Hfit Hopen)
    as (_ & Hlen & Hdirty & _).
  split; assumption.
Defined.

Lemma open_current_witness :
  size three_paths < 2 ^ 32 /\
  BlockStore.open sample_meta_open sample_volume_open "meta" three_paths
                  77 88 = Returns store_opened /\
  BlockStore.current_volume_ store_opened = 1 /\
  BlockStore.current_gen_ store_opened = 1 /\
  wf store_opened.
Proof.
  assert (Hfit : size three_paths < 2 ^ 32) by (vm_compute; reflexivity).
  assert (Hopen : BlockStore.open sample_meta_open sample_volume_open "meta"
                    three_paths 77 88 = Returns store_opened)
    by (vm_compute; reflexivity).
  split; [exact Hfit |]. split; [exact Hopen |].
  apply (open_current sample_meta_open sample_volume_open "meta" three_paths
           77 88 store_opened 1 (volume_of 2 [block_a]) 1 1 Hfit Hopen).
  - reflexivity.
  - vm_compute. reflexivity.
  - vm_compute. reflexivity.
  - vm_compute. reflexivity.
  - intros [| j] vj nj Hj Hv Hn; [| lia].
    vm_compute in Hv, Hn. injection Hv as <-. injection Hn as <-.
    vm_compute. discriminate.
Defined.

Lemma open_panics_witness :
  size three_paths < 2 ^ 32 /\
  BlockStore.open packed_meta_open sample_volume_open "meta" three_paths
                  77 88 = Panics "Can't open blockstore".
Proof.
  assert (Hfit : size three_paths < 2 ^ 32) by (vm_compute; reflexivity).
  split; [exact Hfit |].
  apply (open_panics packed_meta_open sample_volume_open "meta" three_paths
           77 88 (meta_of [(0, 2); (1, 2)]) 2 Hfit).
  - reflexivity.
  - cbn. lia.
  - vm_compute. discriminate.
  - intros [| [| j]] volpath Hj Hp; [| | lia]; eexists; eexists;
      split; vm_compute; reflexivity.
Defined.

Lemma open_packed_witness :
  size two_paths < 2 ^ 32 /\
  BlockStore.open packed_meta_open sample_volume_open "meta" two_paths
                  77 88 = Returns store_opened_packed /\
  BlockStore.current_volume_ store_opened_packed = 77 /\
  BlockStore.current_gen_ store_opened_packed = 88.
Proof.
  assert (Hfit : size two_paths < 2 ^ 32) by (vm_compute; reflexivity).
  assert (Hopen : BlockStore.open packed_meta_open sample_volume_open "meta"
                    two_paths 77 88 = Returns store_opened_packed)
    by (vm_compute; reflexivity).
  split; [exact Hfit |]. split; [exact Hopen |].
  apply (open_packed packed_meta_open sample_volume_open "meta" two_paths
           77 88 store_opened_packed Hfit Hopen).
  intros [| [| j]] vj nj Hv Hn; vm_compute in Hv, Hn; try discriminate;
    injection Hv as <-; injection Hn as <-; vm_compute; discriminate.
Defined.

Lemma open_total_size_witness :
  size three_paths < 2 ^ 32 /\
  BlockStore.open sample_meta_open sample_volume_open "meta" three_paths
                  77 88 = Returns store_opened /\
  BlockStore.total_size_ store_opened = 2 + (2 + (2 + 0)).
Proof.
  assert (Hfit : size three_paths < 2 ^ 32) by (vm_compute; reflexivity).
  assert (Hopen : BlockStore.open sample_meta_open sample_volume_open "meta"
                    three_paths 77 88 = Returns store_opened)
    by (vm_compute; reflexivity).
  split; [exact Hfit |]. split; [exact Hopen |].
  apply (open_total_size sample_meta_open sample_volume_open "meta"
           three_paths 77 88 store_opened Hfit Hopen).
  repeat constructor; vm_compute; discriminate.
Defined.

(** ** When [open] returns *)

Section OpeningReturns.

Context {V M : Type} `{!Volume.Ops V} `{!MetaVolume.Ops M}.
Variable meta_open_existing : string -> outcome M.
Variable volume_open_existing : string -> Z -> outcome V.

Lemma open_volumes_total (meta : M) (volpaths : list string) :
  forall (ix : Z) (volumes : list V) (dirty : list Z),
    0 <= ix -> ix + size volpaths < 2 ^ 32 ->
    (forall (k : nat) volpath,
       volpaths !! k = Some volpath ->
       exists nblocks v,
         MetaVolume.get_nblocks meta (ix + Z.of_nat k) =
           (AKU_SUCCESS, nblocks) /\
         volume_open_existing volpath nblocks = Returns v) ->
    exists r,
      BlockStore.open_volumes volume_open_existing meta ix volpaths
                              volumes dirty = Returns r.
Proof.
  induction volpaths as [| volpath volpaths IH];
    intros ix volumes dirty Hix Hfit Hall.
  - eexists. reflexivity.
  - unfold size in Hfit. cbn [length] in Hfit. cbn [BlockStore.open_volumes].
    destruct (Hall 0%nat volpath eq_refl) as (nb & v & Hnb & Hopen).
    rewrite Z.add_0_r in Hnb. rewrite Hnb.
    destruct (decide (AKU_SUCCESS <> AKU_SUCCESS)); [congruence |].
    rewrite Hopen. cbn.
    rewrite (u32_small (ix + 1)) by (unfold is_u32; lia).
    apply IH; [lia | unfold size; lia |].
    intros k p Hp. destruct (Hall (S k) p Hp) as (nb' & v' & Hnb' & Hopen').
    exists nb', v'.
    replace (ix + 1 + Z.of_nat k) with (ix + Z.of_nat (S k)) by lia.
    split; assumption.
Qed.

Lemma find_current_total (meta : M) (rest : list V) :
  forall (i cv gen : Z),
    (forall j : nat,
       (j < length rest)%nat ->
       fst (MetaVolume.get_generation meta (i + Z.of_nat j)) = AKU_SUCCESS /\
       fst (MetaVolume.get_nblocks meta (i + Z.of_nat j)) = AKU_SUCCESS) ->
    exists r, BlockStore.find_current meta i rest cv gen = Returns r.
Proof.
  induction rest as [| vol rest IH]; intros i cv gen Hall.
  - eexists. reflexivity.
  - cbn [BlockStore.find_current].
    destruct (Hall 0%nat) as [Hg Hn]; [cbn; lia |].
    rewrite Z.add_0_r in Hg, Hn.
    destruct (MetaVolume.get_generation meta i) as [sg g]. cbn in Hg. subst sg.
    destruct (decide (AKU_SUCCESS = AKU_SUCCESS)); [| congruence].
    destruct (MetaVolume.get_nblocks meta i) as [sn nb]. cbn in Hn. subst sn.
    destruct (decide (AKU_SUCCESS <> AKU_SUCCESS)); [congruence |].
    destruct (decide (nb < Volume.get_size vol)); [eexists; reflexivity |].
    apply IH. intros j Hj.
    replace (i + 1 + Z.of_nat j) with (i + Z.of_nat (S j)) by lia.
    apply Hall. cbn. lia.
Qed.

(** X18.  [open] returns a store, and does not panic, whenever the
    registry opens and, for the slot of every path, the registry reports the
    generation and the block count and the volume opens with that block
    count. *)
Theorem open_succeeds (metapath : string) (volpaths : list string)
        (cv0 gen0 : Z) (meta : M) :
  size volpaths < 2 ^ 32 ->
  meta_open_existing metapath = Returns meta ->
  (forall (k : nat) volpath,
     volpaths !! k = Some volpath ->
     fst (MetaVolume.get_generation meta (Z.of_nat k)) = AKU_SUCCESS /\
     exists nblocks v,
       MetaVolume.get_nblocks meta (Z.of_nat k) = (AKU_SUCCESS, nblocks) /\
       volume_open_existing volpath nblocks = Returns v) ->
  exists s,
    BlockStore.open meta_open_existing volume_open_existing metapath volpaths
                    cv0 gen0 = Returns s.
Proof.
  intros Hfit Hmeta Hall.
  unfold BlockStore.open, BlockStore.ctor. rewrite Hmeta. cbn.
  destruct (open_volumes_total meta volpaths 0 [] [])
    as [[volumes dirty] Hopen]; [lia | lia | |].
  { intros k p Hp. destruct (Hall k p Hp) as [_ Hk]. exact Hk. }
  rewrite Hopen. cbn.
  destruct (open_volumes_returns volume_open_existing meta volpaths 0 [] []
              volumes dirty ltac:(lia) ltac:(lia) Hopen)
    as (opened & -> & _ & Hlen & _).
  destruct (find_current_total meta ([] ++ opened) 0 cv0 gen0)
    as [[cv gen] Hfind].
  { intros j Hj. cbn in Hj. rewrite Hlen in Hj.
    destruct (lookup_lt_is_Some_2 volpaths j Hj) as [p Hp].
    destruct (Hall j p Hp) as [Hg (nb & v & Hnb & _)].
    rewrite Z.add_0_l, Hnb. split; [exact Hg | reflexivity]. }
  rewrite Hfind. cbn. eexists. reflexivity.
Qed.

End OpeningReturns.

Lemma open_succeeds_witness :
  size three_paths < 2 ^ 32 /\
  exists s,
    BlockStore.open sample_meta_open sample_volume_open "meta" three_paths
                    77 88 = Returns s.
Proof.
  assert (Hfit : size three_paths < 2 ^ 32) by (vm_compute; reflexivity).
  split; [exact Hfit |].
  apply (open_succeeds sample_meta_open sample_volume_open "meta" three_paths
           77 88 (meta_of [(3, 2); (1, 1); (2, 0)]) Hfit).
  - reflexivity.
  - intros [| [| [| k]]] volpath Hp; try discriminate;
      (split; [vm_compute; reflexivity |]); eexists; eexists;
      split; vm_compute; reflexivity.
Defined.

(** ** A generation that has just become current has no address *)

Section FreshGeneration.

Context {V M : Type} `{!Volume.Ops V} `{!MetaVolume.Ops M}.
Context `{!MetaVolumeLaws M}.
Variable AKU_BLOCK_SIZE : nat.

Implicit Types (s : BlockStore.t V M).

(** X19.  Right after a rotation no address of the current generation
    resolves: with a registry that reads back what was written, and a
    current generation of 32 bits that is congruent to the current slot,
    [exists] returns [false] and [read_block] returns [AKU_EBAD_ARG] for
    the address made of the current generation and any 32-bit offset. *)
Theorem advance_volume_fresh s s' (offset : BlockAddr) :
  wf s ->
  BlockStore.advance_volume s = Returns s' ->
  is_u32 (BlockStore.current_gen_ s') ->
  BlockStore.current_gen_ s' mod size (BlockStore.volumes_ s') =
    BlockStore.current_volume_ s' ->
  is_u32 offset ->
  BlockStore.exists_ s' (make_logic (BlockStore.current_gen_ s') offset) =
    Returns false /\
  BlockStore.read_block AKU_BLOCK_SIZE s'
    (make_logic (BlockStore.current_gen_ s') offset) =
    Returns (AKU_EBAD_ARG, None).
Proof.
  intros Hwf Hadv Hgen Hring Hoff.
  destruct (advance_volume_keeps s s' Hwf Hadv) as (Hwf' & _).
  assert (Hnb :
    MetaVolume.get_nblocks (BlockStore.meta_ s')
      (BlockStore.current_volume_ s') = (AKU_SUCCESS, 0)).
  { destruct (advance_volume_returns s s' Hwf Hadv)
      as (gen & nb & Hg & Hn &
          [[-> ->] | (_ & m1 & m2 & v & d & Hset1 & Hset2 & _ & _ & ->)]);
      cbn; [exact Hn | apply (get_set_nblocks _ _ _ _ Hset2)]. }
  set (addr := make_logic (BlockStore.current_gen_ s') offset).
  assert (Hg : extract_gen addr = BlockStore.current_gen_ s').
  { subst addr. rewrite make_logic_value by assumption.
    apply extract_gen_value; assumption. }
  assert (Ho : extract_vol addr = offset).
  { subst addr. rewrite make_logic_value by assumption.
    apply extract_vol_value; assumption. }
  assert (Hslot : slot_of s' addr = BlockStore.current_volume_ s').
  { unfold slot_of. rewrite Hg. exact Hring. }
  assert (Hne : BlockStore.volumes_ s' <> []).
  { intros Hnil. pose proof (wf_volumes s' Hwf') as Hn.
    rewrite Hnil in Hn. unfold size in Hn. cbn in Hn. lia. }
  split.
  - rewrite (exists_unfold s' addr Hne), Hslot, Hnb.
    destruct (MetaVolume.get_generation _ _) as [[] g]; try reflexivity.
    rewrite (bool_decide_eq_false_2 (extract_vol addr < 0)).
    + apply f_equal. apply andb_false_r.
    + rewrite Ho. destruct Hoff. lia.
  - apply read_block_rejects; [exact Hne |].
    rewrite Hslot, Hnb. cbn. right. right. right.
    rewrite Ho. destruct Hoff. lia.
Qed.

End FreshGeneration.

Lemma advance_volume_fresh_witness :
  wf store_full_ring /\
  BlockStore.advance_volume store_full_ring = Returns store_after_wrap /\
  BlockStore.exists_ store_after_wrap
    (make_logic (BlockStore.current_gen_ store_after_wrap) 0) =
    Returns false /\
  BlockStore.read_block sample_block_size store_after_wrap
    (make_logic (BlockStore.current_gen_ store_after_wrap) 0) =
    Returns (AKU_EBAD_ARG, None).
Proof.
  assert (Hadv : BlockStore.advance_volume store_full_ring =
                 Returns store_after_wrap) by (vm_compute; reflexivity).
  split; [exact store_full_ring_wf |]. split; [exact Hadv |].
  apply (advance_volume_fresh sample_block_size store_full_ring
           store_after_wrap 0 store_full_ring_wf Hadv).
  - unfold is_u32. cbn. lia.
  - vm_compute. reflexivity.
  - unfold is_u32. lia.
Defined.

(** ** Staleness of the addresses of a slot that was reset *)

Section StalenessPersists.

Context {V M : Type} `{!Volume.Ops V} `{!MetaVolume.Ops M}.
Context `{!MetaVolumeLaws M} `{!MetaVolumeFrame M}.
Variable AKU_BLOCK_SIZE : nat.

Implicit Types (s : BlockStore.t V M) (addr : LogicAddr).

Lemma bumped_more (gen n slot bumps bumps' : Z) s :
  bumps <= bumps' -> bumped gen n slot bumps s -> bumped gen n slot bumps' s.
Proof.
  intros Hle (Hwf & Hn & Hg). split; [exact Hwf |]. split; [exact Hn |].
  intros g Hread. destruct (Hg g Hread) as (j & Hj & ->).
  exists j. split; [lia | reflexivity].
Qed.

(** One more bump of a generation that was bumped [j] times. *)
Lemma u32_bump_again (gen n j : Z) :
  u32 (u32 (gen + j * n) + n) = u32 (gen + (j + 1) * n).
Proof.
  unfold u32. rewrite Z.add_mod_idemp_l by lia. f_equal. lia.
Qed.

(** A rotation bumps the generation of a slot at most once more. *)
Lemma bumped_advance_volume (gen n slot bumps : Z) s s' :
  bumped gen n slot bumps s ->
  BlockStore.advance_volume s = Returns s' ->
  bumped gen n slot (bumps + 1) s'.
Proof.
  intros (Hwf & Hn & Hg) Hadv.
  destruct (advance_volume_keeps s s' Hwf Hadv) as (Hwf' & Hsz & _).
  split; [exact Hwf' |]. split; [congruence |].
  destruct (decide (slot = next_slot s)) as [-> | Hne].
  - destruct (advance_volume_returns s s' Hwf Hadv)
      as (g0 & nb & Hg0 & _ &
          [[_ ->] | (_ & m1 & m2 & v & d & Hset1 & Hset2 & _ & _ & ->)]);
      cbn.
    + intros g Hread. destruct (Hg g Hread) as (j & Hj & ->).
      exists j. split; [lia | reflexivity].
    + intros g Hread.
      rewrite (generation_after_reset _ _ _ _ _ Hset1 Hset2) in Hread.
      injection Hread as <-.
      destruct (Hg g0 Hg0) as (j & Hj & ->).
      exists (j + 1). split; [lia |]. rewrite Hn. apply u32_bump_again.
  - intros g Hread.
    destruct (advance_volume_registry_frame s s' slot Hwf Hadv Hne)
      as [Hsame _].
    rewrite Hsame in Hread. destruct (Hg g Hread) as (j & Hj & ->).
    exists j. split; [lia | reflexivity].
Qed.

(** An append bumps the generation of a slot at most once. *)
Lemma bumped_append_block (gen n slot bumps : Z) s s'
      (data : list Byte.byte) (r : aku_Status * LogicAddr) :
  bumped gen n slot bumps s ->
  BlockStore.append_block s data = Returns (r, s') ->
  bumped gen n slot (bumps + 1) s'.
Proof.
  intros Hb Hret. pose proof Hb as (Hwf & Hn & Hg).
  pose proof (append_block_outcome s data Hwf) as Hout.
  rewrite Hret in Hout. destruct Hout as [Hwf' Hsz].
  split; [exact Hwf' |]. split; [congruence |].
  destruct (append_block_returns s data r s' Hret)
    as (v & v' & st & offset & Hcv & Hv & Happ &
        [(_ & m' & d & Hset & _ & _ & ->) |
         (-> & s1 & w & w' & st1 & offset1 & Hadv & _ & _ & _ & _ & ->)]).
  - cbn. intros g Hread.
    rewrite (get_generation_set_nblocks _ _ _ _ slot Hset) in Hread.
    destruct (Hg g Hread) as (j & Hj & ->).
    exists j. split; [lia | reflexivity].
  - assert (Hb0 : bumped gen n slot bumps
                    (BlockStore.store_volume s (BlockStore.current_volume_ s)
                       v')).
    { split; [apply wf_store_volume; exact Hwf |]. split; [| exact Hg].
      unfold size. cbn. rewrite length_insert. exact Hn. }
    destruct (bumped_advance_volume gen n slot bumps _ s1 Hb0 Hadv)
      as (_ & _ & Hg1).
    exact Hg1.
Qed.

(** A flush bumps no generation. *)
Lemma bumped_flush (gen n slot bumps : Z) s s' :
  bumped gen n slot bumps s ->
  BlockStore.flush s = Returns s' ->
  bumped gen n slot bumps s'.
Proof.
  intros ([Hvol Hdirty Hcur] & Hn & Hg) Hflush.
  destruct (flush_loop_spec (length (BlockStore.dirty_ s)) 0 s Hdirty eq_refl)
    as (s1 & Hrun & Hm & Hc & _ & _ & Hld & Hlv & _ & _).
  unfold BlockStore.flush in Hflush. rewrite Hrun in Hflush.
  cbn in Hflush. injection Hflush as <-.
  split; [| split].
  - split; cbn; unfold size in *; rewrite ?Hlv, ?Hld, ?Hc; assumption.
  - unfold size in *. cbn. rewrite Hlv. exact Hn.
  - cbn. intros g Hread. rewrite get_generation_flush, Hm in Hread.
    exact (Hg g Hread).
Qed.

(** A sequence of calls bumps the generation of a slot at most once per
    call. *)
Lemma bumped_run (gen n slot : Z) (ops : list operation) :
  forall (bumps : Z) s s',
    bumped gen n slot bumps s ->
    run s ops = Returns s' ->
    bumped gen n slot (bumps + size ops) s'.
Proof.
  induction ops as [| o ops IH]; intros bumps s s' Hb Hrun.
  - cbn in Hrun. injection Hrun as <-.
    apply (bumped_more gen n slot bumps); [unfold size; cbn; lia | exact Hb].
  - cbn [run] in Hrun.
    destruct (apply_operation s o) as [s1 | | |] eqn:Hstep;
      try (cbn in Hrun; discriminate).
    cbn in Hrun.
    assert (Hb1 : bumped gen n slot (bumps + 1) s1).
    { destruct o as [data |]; cbn in Hstep.
      - destruct (BlockStore.append_block s data) as [[r s2] | | |] eqn:Happ;
          try (cbn in Hstep; discriminate).
        cbn in Hstep. injection Hstep as ->.
        apply (bumped_append_block gen n slot bumps s s1 data r Hb Happ).
      - apply (bumped_more gen n slot bumps); [lia |].
        apply (bumped_flush gen n slot bumps s s1 Hb Hstep). }
    apply (bumped_more gen n slot (bumps + 1 + size ops));
      [unfold size; cbn [length]; lia |].
    apply (IH (bumps + 1) s1 s' Hb1 Hrun).
Qed.

(** While the bumps do not add up to [2^32], an address of the original
    generation is refused whatever the block count of its slot. *)
Lemma bumped_stale (bumps : Z) s addr :
  bumped (extract_gen addr) (size (BlockStore.volumes_ s)) (slot_of s addr)
         bumps s ->
  bumps * size (BlockStore.volumes_ s) < 2 ^ 32 ->
  BlockStore.exists_ s addr = Returns false /\
  BlockStore.read_block AKU_BLOCK_SIZE s addr = Returns (AKU_EBAD_ARG, None).
Proof.
  intros (Hwf & _ & Hg) Hfit.
  pose proof (wf_volumes s Hwf) as Hn.
  assert (Hne : BlockStore.volumes_ s <> []).
  { intros Hnil. rewrite Hnil in Hn. unfold size in Hn. cbn in Hn. lia. }
  assert (Hdiff : forall g,
    MetaVolume.get_generation (BlockStore.meta_ s) (slot_of s addr) =
      (AKU_SUCCESS, g) -> g <> extract_gen addr).
  { intros g Hread. destruct (Hg g Hread) as (j & Hj & ->).
    apply bump_changes_generation; [apply extract_gen_range | nia]. }
  split.
  - rewrite (exists_unfold s addr Hne).
    destruct (MetaVolume.get_generation _ _) as [[] g] eqn:Hread;
      try reflexivity.
    rewrite (bool_decide_eq_false_2 _ (Hdiff g eq_refl)).
    destruct (MetaVolume.get_nblocks _ _) as [[] nb]; reflexivity.
  - apply read_block_rejects; [exact Hne |].
    destruct (MetaVolume.get_generation _ _) as [sg g] eqn:Hread. cbn.
    destruct (decide (sg = AKU_SUCCESS)) as [-> | Hsg]; [| tauto].
    right. right. left. apply (Hdiff g eq_refl).
Qed.

(** C7.  Let a rotation of a well-formed store reset the slot it moves to
    (the slot's block count was nonzero), and let [addr] be an address of
    that slot carrying the generation the slot held before.  After the
    rotation, and after any sequence of appends and flushes that follows
    it -- the slot may be written again, and reset again, as long as the
    bumps of its generation do not add up to [2^32] -- [exists] returns
    [false] for [addr] and [read_block] returns [AKU_EBAD_ARG]. *)
Theorem stale_after_reset s s' s'' addr (nblocks : Z)
        (ops : list operation) :
  wf s ->
  slot_of s addr = next_slot s ->
  MetaVolume.get_generation (BlockStore.meta_ s) (next_slot s) =
    (AKU_SUCCESS, extract_gen addr) ->
  MetaVolume.get_nblocks (BlockStore.meta_ s) (next_slot s) =
    (AKU_SUCCESS, nblocks) ->
  nblocks <> 0 ->
  BlockStore.advance_volume s = Returns s' ->
  run s' ops = Returns s'' ->
  (1 + size ops) * size (BlockStore.volumes_ s) < 2 ^ 32 ->
  BlockStore.exists_ s'' addr = Returns false /\
  BlockStore.read_block AKU_BLOCK_SIZE s'' addr = Returns (AKU_EBAD_ARG, None).
Proof.
  intros Hwf Hslot Hgen Hnblocks Hnb Hadv Hrun Hfit.
  set (n := size (BlockStore.volumes_ s)) in *.
  assert (Hb : bumped (extract_gen addr) n (next_slot s) 1 s').
  { destruct (advance_volume_keeps s s' Hwf Hadv) as (Hwf' & Hsz & _).
    split; [exact Hwf' |]. split; [exact Hsz |].
    destruct (advance_volume_returns s s' Hwf Hadv)
      as (gen & nb & Hgen' & Hnblocks' & Hcases).
    rewrite Hgen in Hgen'. rewrite Hnblocks in Hnblocks'.
    injection Hgen' as <-. injection Hnblocks' as <-.
    destruct Hcases
      as [[Hz _] | (_ & m1 & m2 & v & d & Hset1 & Hset2 & _ & _ & ->)];
      [contradiction |].
    cbn. intros g Hread.
    rewrite (generation_after_reset _ _ _ _ _ Hset1 Hset2) in Hread.
    injection Hread as <-. exists 1. split; [lia |].
    fold n. f_equal. lia. }
  pose proof (bumped_run _ _ _ ops 1 s' s'' Hb Hrun) as Hb'.
  pose proof Hb' as (_ & Hsz'' & _).
  apply (bumped_stale (1 + size ops)).
  - rewrite Hsz''. unfold slot_of at 1. rewrite Hsz''.
    fold n. unfold slot_of in Hslot. fold n in Hslot. rewrite Hslot.
    exact Hb'.
  - rewrite Hsz''. exact Hfit.
Qed.

End StalenessPersists.

Lemma stale_after_reset_witness :
  wf store_full_ring /\
  BlockStore.advance_volume store_full_ring = Returns store_after_wrap /\
  run store_after_wrap [Append block_a; Append block_c; Flush] =
    Returns store_rewritten /\
  BlockStore.exists_ store_full_ring (make_logic 0 1) = Returns true /\
  BlockStore.exists_ store_rewritten (make_logic 2 1) = Returns true /\
  BlockStore.exists_ store_rewritten (make_logic 0 1) = Returns false /\
  BlockStore.read_block sample_block_size store_rewritten (make_logic 0 1) =
    Returns (AKU_EBAD_ARG, None).
Proof.
  split; [exact store_full_ring_wf |].
  split; [vm_compute; reflexivity |]. split; [vm_compute; reflexivity |].
  split; [vm_compute; reflexivity |]. split; [vm_compute; reflexivity |].
  apply (stale_after_reset sample_block_size store_full_ring store_after_wrap
           store_rewritten (make_logic 0 1) 2
           [Append block_a; Append block_c; Flush]).
  - exact store_full_ring_wf.
  - vm_compute. reflexivity.
  - vm_compute. reflexivity.
  - vm_compute. reflexivity.
  - lia.
  - vm_compute. reflexivity.
  - vm_compute. reflexivity.
  - vm_compute. reflexivity.
Defined.
